(** * nestle-chatbot backend: crawler, graph ingestion, index upload, retrieval

    A shallow embedding of the server module (the [GraphRAG] class it
    defines and uses, [scrapeWebsite], [uploadToAzureSearch] and the
    [/api/chat] handler) together with the properties its specification
    states.

    Conventions of the embedding

    - A JavaScript string is a sequence of UTF-16 code units, and [string]
      below is that sequence, each unit given by its number. [length],
      [substring], [includes], [startsWith], the regular-expression
      [replace] and [trim] act on code units, as they do in the engine: a
      character outside the Basic Multilingual Plane counts as two.
    - The Neo4j store is a record of a finite map of [Content] nodes, keyed by
      their [id] property, and the list of relationships in creation order.
    - External calls that can reject ([session.run], [page.goto],
      [searchClient.search], ...) take their outcome from an explicit oracle
      or argument, and [try]/[catch] is a small completion type.
    - JavaScript numbers that matter ([similarity]) are the rationals they
      denote. *)

From Stdlib Require Import QArith Qround Qabs Lqa DecimalN.
From stdpp Require Import base gmap sets list sorting.

Local Open Scope nat_scope.

(** ** JavaScript strings *)

(** A string value: the empty sequence, or a code unit followed by a string.
    The strings of the language are those whose units all lie below [65536];
    nothing below depends on that bound. *)
Inductive string : Type :=
  | EmptyString
  | String (c : N) (s : string).

Global Instance string_eq_dec : EqDecision string.
Proof. solve_decision. Defined.

Module String.

(** [s.length] *)
Fixpoint length (s : string) : nat :=
  match s with
  | EmptyString => 0
  | String _ s' => S (length s')
  end.

(** [s1 + s2] *)
Fixpoint append (s1 s2 : string) : string :=
  match s1 with
  | EmptyString => s2
  | String c s1' => String c (append s1' s2)
  end.

(** [s2.startsWith(s1)] *)
Fixpoint prefix (s1 s2 : string) {struct s2} : bool :=
  match s1 with
  | EmptyString => true
  | String a s1' =>
      match s2 with
      | EmptyString => false
      | String b s2' => if decide (a = b) then prefix s1' s2' else false
      end
  end.

(** [s.substring(n, n + m)]: the [m] units from position [n] on, fewer where
    the string ends before. *)
Fixpoint substring (n m : nat) (s : string) : string :=
  match n, m, s with
  | 0, 0, _ => EmptyString
  | 0, S m', EmptyString => s
  | 0, S m', String c s' => String c (substring 0 m' s')
  | S n', _, EmptyString => s
  | S n', _, String c s' => substring n' m s'
  end.

Fixpoint rev (s : string) : string :=
  match s with
  | EmptyString => EmptyString
  | String c s' => append (rev s') (String c EmptyString)
  end.

Fixpoint units (s : string) : list N :=
  match s with
  | EmptyString => []
  | String c s' => c :: units s'
  end.

Fixpoint ofUnits (l : list N) : string :=
  match l with
  | [] => EmptyString
  | c :: l' => String c (ofUnits l')
  end.

(** String literals: the units of an ASCII literal are its bytes. *)
Fixpoint ofBytes (l : list Byte.byte) : option string :=
  match l with
  | [] => Some EmptyString
  | b :: l' =>
      if (Byte.to_N b <? 128)%N then String (Byte.to_N b) <$> ofBytes l' else None
  end.

Fixpoint toBytes (s : string) : option (list Byte.byte) :=
  match s with
  | EmptyString => Some []
  | String c s' =>
      if (c <? 128)%N then b ← Byte.of_N c; (b ::.) <$> toBytes s' else None
  end.

End String.

Global Arguments String.append : simpl never.

Declare Scope js_scope.
Delimit Scope js_scope with js.
Bind Scope js_scope with string.
String Notation string String.ofBytes String.toBytes : js_scope.
Local Open Scope js_scope.

Infix "+:+" := String.append (at level 60, right associativity) : js_scope.

Global Instance string_countable : Countable string.
Proof.
  refine (inj_countable' String.units String.ofUnits _).
  intros s. induction s as [|c s IH]; simpl; congruence.
Defined.

(** ** JavaScript string primitives *)

Module Js.

(** The code units of ["-"] and ["_"]. *)
Definition dash : N := 45.
Definition underscore : N := 95.

(** [s.startsWith(p)] *)
Definition startsWith (s p : string) : bool := String.prefix p s.

(** [s.includes(sub)]; also Cypher's [s CONTAINS sub]. *)
Fixpoint includes (s sub : string) : bool :=
  if String.prefix sub s then true
  else match s with
       | EmptyString => false
       | String _ s' => includes s' sub
       end.

(** [s.substring(0, n)] *)
Definition substring0 (n : nat) (s : string) : string := String.substring 0 n s.

(** A string is truthy iff it is not empty. *)
Definition truthy (s : string) : bool :=
  match s with EmptyString => false | _ => true end.

(** [a || b] on strings. *)
Definition or_else (a b : string) : string := if truthy a then a else b.

(** The class [[a-zA-Z0-9]] on a code unit. *)
Definition is_alnum (c : N) : bool :=
  (((48 <=? c) && (c <=? 57)) || ((65 <=? c) && (c <=? 90))
   || ((97 <=? c) && (c <=? 122)))%N.

(** [s.replace(/[^a-zA-Z0-9]/g, '_')]: the expression has no [u] flag, so it
    matches unit by unit. *)
Fixpoint replaceNonAlnum (s : string) : string :=
  match s with
  | EmptyString => EmptyString
  | String c s' => String (if is_alnum c then c else underscore) (replaceNonAlnum s')
  end.

(** The units [trim] strips: the language's white space (tab, vertical tab,
    form feed, space, no-break space, the byte order mark U+FEFF and the
    space separators U+1680, U+2000 to U+200A, U+202F, U+205F, U+3000) and
    its line terminators (line feed, carriage return, U+2028, U+2029). *)
Definition is_space (c : N) : bool :=
  bool_decide (c ∈ [9; 10; 11; 12; 13; 32; 160; 5760; 8232; 8233; 8239; 8287; 12288; 65279]%N)
  || ((8192 <=? c) && (c <=? 8202))%N.

Fixpoint trimStart (s : string) : string :=
  match s with
  | String c s' => if is_space c then trimStart s' else s
  | EmptyString => EmptyString
  end.

(** [s.trim()] *)
Definition trim (s : string) : string :=
  String.rev (trimStart (String.rev (trimStart s))).

(** The decimal digits of a numeral, as code units. *)
Fixpoint digits (d : Decimal.uint) : string :=
  match d with
  | Decimal.Nil => EmptyString
  | Decimal.D0 d' => String 48 (digits d')
  | Decimal.D1 d' => String 49 (digits d')
  | Decimal.D2 d' => String 50 (digits d')
  | Decimal.D3 d' => String 51 (digits d')
  | Decimal.D4 d' => String 52 (digits d')
  | Decimal.D5 d' => String 53 (digits d')
  | Decimal.D6 d' => String 54 (digits d')
  | Decimal.D7 d' => String 55 (digits d')
  | Decimal.D8 d' => String 56 (digits d')
  | Decimal.D9 d' => String 57 (digits d')
  end.

(** [String(z)] for an integer [z], as a template literal prints it. *)
Definition numeral (z : Z) : string :=
  if (z <? 0)%Z then "-" +:+ digits (N.to_uint (Z.to_N (- z)))
  else digits (N.to_uint (Z.to_N z)).

(** [a.slice(i, j)] for [0 <= i <= j]. *)
Definition slice {A} (i j : nat) (l : list A) : list A := take (j - i) (drop i l).

(** [a.includes(x)] on arrays of strings. *)
Definition arrayIncludes (l : list string) (x : string) : bool := bool_decide (x ∈ l).

End Js.

(** ** Items held in [scrapedData] *)

(** [scrapedData] holds two shapes of object: the [{url, html}] record pushed
    by [extractPageContent] and the [{type, text, url}] items it returns. *)
Inductive RawItem : Type :=
  | RawHtml (url html : string)
  | RawContent (type text url : string).

Global Instance RawItem_eq_dec : EqDecision RawItem.
Proof. solve_decision. Defined.

(** An element of [validContent]: the item's own fields and the added [id]. *)
Record NormalizedContent : Type := mkNormalized {
  nc_type : string;
  nc_text : string;
  nc_url : string;
  nc_id : string
}.

Global Instance NormalizedContent_eq_dec : EqDecision NormalizedContent.
Proof. solve_decision. Defined.

(** ** Content normalisation ([validContent] of [ingestContent]) *)

Module Normalizer.

Definition graphTypes : list string := ["h1"; "h2"; "h3"; "h4"; "p"; "li"].
Definition headingTypes : list string := ["h1"; "h2"; "h3"; "h4"].

(** [item && item.text && typeof item.text === 'string' &&
     item.text.length > 10 && [...].includes(item.type)] *)
Definition isValid (item : RawItem) : bool :=
  match item with
  | RawHtml _ _ => false
  | RawContent type text _ =>
      Js.truthy text && (10 <? String.length text) && Js.arrayIncludes graphTypes type
  end.

(** [`${item.url}-${item.text.substring(0, 50).replace(/[^a-zA-Z0-9]/g, '_')}`] *)
Definition contentId (url text : string) : string :=
  url +:+ "-" +:+ Js.replaceNonAlnum (Js.substring0 50 text).

(** [{...item, id: ...}]; only reached on items that passed the filter. *)
Definition withId (item : RawItem) : NormalizedContent :=
  match item with
  | RawContent type text url => mkNormalized type text url (contentId url text)
  | RawHtml url _ => mkNormalized "" "" url (contentId url "")
  end.

Definition validContent (content : list RawItem) : list NormalizedContent :=
  withId <$> filter (λ item, isValid item = true) content.

Definition isHeading (item : NormalizedContent) : bool :=
  Js.arrayIncludes headingTypes (nc_type item).

Definition headingContent (valid : list NormalizedContent) : list NormalizedContent :=
  filter (λ item, isHeading item = true) valid.

End Normalizer.

(** ** Completions: [try]/[catch] over a threaded state *)

(** A block either runs to its end or throws; in both cases the state it
    reached (the external store, the console) is kept. *)
Inductive Completion (S : Type) : Type :=
  | Normal (s : S)
  | Thrown (s : S).
Arguments Normal {S} s.
Arguments Thrown {S} s.

Definition stateOf {S} (c : Completion S) : S :=
  match c with Normal s | Thrown s => s end.

Definition hasThrown {S} (c : Completion S) : bool :=
  match c with Normal _ => false | Thrown _ => true end.

(** [for (let i = i0; i < items.length; i += size) { body(items.slice(i, i + size)) }]

    [fuel] bounds the number of iterations; [length items] is always enough
    when [size] is positive (lemma [forBatches_fuel] below). *)
Fixpoint forBatches {A S} (fuel size i : nat) (items : list A)
    (body : list A → S → Completion S) (s : S) : Completion S :=
  match fuel with
  | 0 => Normal s
  | S fuel' =>
      if i <? length items then
        match body (Js.slice i (i + size) items) s with
        | Normal s' => forBatches fuel' size (i + size) items body s'
        | Thrown s' => Thrown s'
        end
      else Normal s
  end.

(** The batches the loop above cuts, in order. *)
Fixpoint batchesFrom {A} (fuel size i : nat) (items : list A) : list (list A) :=
  match fuel with
  | 0 => []
  | S fuel' =>
      if i <? length items
      then Js.slice i (i + size) items :: batchesFrom fuel' size (i + size) items
      else []
  end.

Definition batchesOf {A} (size : nat) (items : list A) : list (list A) :=
  batchesFrom (length items) size 0 items.

(** Running a body over given batches, stopping at the first throw. *)
Fixpoint forEachBatch {A S} (body : list A → S → Completion S) (batches : list (list A))
    (s : S) : Completion S :=
  match batches with
  | [] => Normal s
  | batch :: rest =>
      match body batch s with
      | Normal s' => forEachBatch body rest s'
      | Thrown s' => Thrown s'
      end
  end.

(** ** The graph store and [GraphRAG] *)

Module Graph.

(** A [Content] node's properties other than its [id] key. *)
Record Node : Type := mkNode {
  n_text : string;
  n_type : string;
  n_url : string
}.

(** A [RELATED_TO] relationship between the nodes with the given [id]s. *)
Record Edge : Type := mkEdge {
  e_source : string;
  e_target : string;
  e_context : option string
}.

Global Instance Node_eq_dec : EqDecision Node.
Proof. solve_decision. Defined.

Global Instance Edge_eq_dec : EqDecision Edge.
Proof. solve_decision. Defined.

Record Store : Type := mkStore {
  nodes : gmap string Node;
  edges : list Edge
}.

Definition empty : Store := mkStore ∅ [].

(** [MERGE (n:Content {id: item.id}) SET n.text = .., n.type = .., n.url = ..] *)
Definition mergeNode (g : Store) (item : NormalizedContent) : Store :=
  mkStore (<[nc_id item := mkNode (nc_text item) (nc_type item) (nc_url item)]> (nodes g))
          (edges g).

(** The node statement on one batch: [UNWIND $batch AS item ...]. *)
Definition mergeNodes (batch : list NormalizedContent) (g : Store) : Store :=
  foldl mergeNode g batch.

(** [MERGE (n)-[:RELATED_TO {context: 'section'}]->(other)]: created only when
    no such relationship exists. *)
Definition mergeEdge (g : Store) (e : Edge) : Store :=
  if decide (e ∈ edges g) then g else mkStore (nodes g) (edges g ++ [e]).

(** The [WHERE] clause of the relationship statement, for the node [n] with
    key [nid] and a candidate [other] with key [oid]. *)
Definition related (nid : string) (n : Node) (oid : string) (other : Node) : bool :=
  bool_decide (n_url other = n_url n)
  && Js.arrayIncludes ["p"; "li"] (n_type other)
  && Js.includes (n_text other) (n_text n)
  && (5 <? String.length (n_text n))
  && negb (bool_decide (oid = nid)).

(** The rows [MATCH (n:Content {id: item.id}) MATCH (other:Content) WHERE ...]
    yields for one item, as the relationships to merge. *)
Definition relatedEdges (g : Store) (item : NormalizedContent) : list Edge :=
  match nodes g !! nc_id item with
  | None => []
  | Some n =>
      (λ p, mkEdge (nc_id item) p.1 (Some "section")) <$>
        filter (λ p, related (nc_id item) n p.1 p.2 = true) (map_to_list (nodes g))
  end.

Definition relateItem (g : Store) (item : NormalizedContent) : Store :=
  foldl mergeEdge g (relatedEdges g item).

(** The relationship statement on one batch of headings. *)
Definition mergeRelated (batch : list NormalizedContent) (g : Store) : Store :=
  foldl relateItem g batch.

(** What the session did, in order. *)
Inductive Event : Type :=
  | LogProcessing (valid : nat)
  | RunNodes (batch : list NormalizedContent)
  | RunRelated (batch : list NormalizedContent)
  | LogError
  | SessionClose.

Global Instance Event_eq_dec : EqDecision Event.
Proof. solve_decision. Defined.

Record Session : Type := mkSession {
  store : Store;
  calls : nat;
  events : list Event
}.

Definition logEvent (ev : Event) (s : Session) : Session :=
  mkSession (store s) (calls s) (events s ++ [ev]).

(** [await session.run(stmt, { batch })]. [fails k] tells whether the [k]-th
    call of this session rejects; a rejected statement writes nothing. *)
Definition sessionRun (fails : nat → bool) (ev : Event) (stmt : Store → Store)
    (s : Session) : Completion Session :=
  let s' := mkSession (store s) (S (calls s)) (events s ++ [ev]) in
  if fails (calls s) then Thrown s'
  else Normal (mkSession (stmt (store s)) (calls s') (events s')).

Definition nodeBatchSize : nat := 100.
Definition relBatchSize : nat := 50.

(** [GraphRAG.ingestContent(content)] of the server. *)
Definition ingestContent (fails : nat → bool) (g : Store) (content : list RawItem) : Session :=
  let session := mkSession g 0 [] in
  let validContent := Normalizer.validContent content in
  let tried :=
    let s1 := logEvent (LogProcessing (length validContent)) session in
    match forBatches (length validContent) nodeBatchSize 0 validContent
            (λ batch, sessionRun fails (RunNodes batch) (mergeNodes batch)) s1 with
    | Thrown s => Thrown s
    | Normal s2 =>
        let headingContent := Normalizer.headingContent validContent in
        forBatches (length headingContent) relBatchSize 0 headingContent
          (λ batch, sessionRun fails (RunRelated batch) (mergeRelated batch)) s2
    end in
  let caught :=
    match tried with
    | Normal s => s
    | Thrown s => logEvent LogError s
    end in
  logEvent SessionClose caught.

(** No statement of the session rejects. *)
Definition noFailure : nat → bool := λ _, false.

(** The statements a session attempted, in order. *)
Definition isAttempt (ev : Event) : bool :=
  match ev with RunNodes _ | RunRelated _ => true | _ => false end.

Definition attempts (evs : list Event) : list Event :=
  filter (λ ev, isAttempt ev = true) evs.

Definition errorsLogged (evs : list Event) : nat :=
  length (filter (λ ev, ev = LogError) evs).

(** The statements [ingestContent] is to run on [content]. *)
Definition plannedBatches (content : list RawItem) : list Event :=
  let validContent := Normalizer.validContent content in
  (RunNodes <$> batchesOf nodeBatchSize validContent)
  ++ (RunRelated <$> batchesOf relBatchSize (Normalizer.headingContent validContent)).

(** The effect of one attempted statement on the store when it succeeds. *)
Definition applyBatch (g : Store) (ev : Event) : Store :=
  match ev with
  | RunNodes batch => mergeNodes batch g
  | RunRelated batch => mergeRelated batch g
  | _ => g
  end.

(** Running given statements in order through [sessionRun], stopping at the
    first rejection. *)
Fixpoint runPlanned (fails : nat → bool) (plan : list Event) (s : Session)
    : Completion Session :=
  match plan with
  | [] => Normal s
  | ev :: rest =>
      match sessionRun fails ev (λ g, applyBatch g ev) s with
      | Normal s' => runPlanned fails rest s'
      | Thrown s' => Thrown s'
      end
  end.

(** The relationship [e] joins two nodes of [g] that carry the same url. *)
Definition connectsSameUrl (g : Store) (e : Edge) : Prop :=
  ∃ n m, nodes g !! e_source e = Some n ∧ nodes g !! e_target e = Some m
         ∧ n_url n = n_url m.

(** The stores that ingestion builds from the empty one, whichever
    statements reject on the way. *)
Inductive Built : Store → Prop :=
  | Built_empty : Built empty
  | Built_ingest fails g content :
      Built g → Built (store (ingestContent fails g content)).

(** MERGE on a list of relationships. *)
Definition addEdge (es : list Edge) (e : Edge) : list Edge :=
  if decide (e ∈ es) then es else es ++ [e].

(** No dash occurs in [s]. *)
Fixpoint dashFree (s : string) : Prop :=
  match s with
  | EmptyString => True
  | String c s' => c ≠ Js.dash ∧ dashFree s'
  end.

(** The key of a node is its url, a dash, and a dash-free rest. *)
Definition keyCarriesUrl (id : string) (n : Node) : Prop :=
  ∃ rest, id = n_url n +:+ "-" +:+ rest ∧ dashFree rest.

(** The invariant of built stores: keys carry their node's url, and every
    relationship joins nodes with the same url. *)
Definition wellKeyed (g : Store) : Prop :=
  (∀ id n, nodes g !! id = Some n → keyCarriesUrl id n)
  ∧ (∀ e, e ∈ edges g → connectsSameUrl g e).

(** The properties [item] sets on its node. *)
Definition nodeOf (item : NormalizedContent) : Node :=
  mkNode (nc_text item) (nc_type item) (nc_url item).

(** The node statement on the node map alone. *)
Definition upsert (m : gmap string Node) (item : NormalizedContent) : gmap string Node :=
  <[nc_id item := nodeOf item]> m.

(** The last write to [k] in [items], if any. *)
Fixpoint lastWrite (items : list NormalizedContent) (k : string) : option Node :=
  match items with
  | [] => None
  | x :: rest =>
      match lastWrite rest k with
      | Some n => Some n
      | None => if decide (nc_id x = k) then Some (nodeOf x) else None
      end
  end.

End Graph.

(** ** Graph queries *)

Module Retrieval.

(** The two APOC text functions the query calls; they live in the graph
    store, so they are taken as given. *)
Record Apoc : Type := mkApoc {
  clean : string → string;
  jaroWinklerDistance : string → string → Q
}.

(** A decimal numeral with two fraction digits, as [toFixed(2)] prints it:
    a sign and the number of hundredths. *)
Record Fixed2 : Type := mkFixed2 {
  negative : bool;
  hundredths : Z
}.

Definition pad2 (n : Z) : string :=
  if (n <? 10)%Z then "0" +:+ Js.numeral n else Js.numeral n.

(** The string [toFixed(2)] returns. *)
Definition render (d : Fixed2) : string :=
  (if negative d then "-" else "") +:+ Js.numeral (hundredths d / 100)%Z +:+ "."
  +:+ pad2 (hundredths d mod 100)%Z.

(** The number a [Fixed2] numeral denotes. *)
Definition valueOf (d : Fixed2) : Q :=
  let v := (inject_Z (hundredths d) / 100)%Q in
  if negative d then (- v)%Q else v.

(** [Number.prototype.toFixed(2)]: the integer [n] with [n / 100 - x] nearest
    to zero, the larger one on a tie; a negative [x] is printed as ["-"]
    followed by the numeral of [-x]. *)
Definition toFixed2 (x : Q) : Fixed2 :=
  if Qlt_le_dec x 0
  then mkFixed2 true (Qfloor (- x * 100 + (1 # 2))%Q)
  else mkFixed2 false (Qfloor (x * 100 + (1 # 2))%Q).

(** A row the Cypher statement returns. *)
Record Row : Type := mkRow {
  row_source : string;
  row_relationship : option string;
  row_target : string;
  row_sourceUrl : string;
  row_targetUrl : string;
  row_similarity : Q
}.

(** [MATCH (n:Content)-[r:RELATED_TO]->(m:Content)
     WHERE n.text CONTAINS $query OR m.text CONTAINS $query
     WITH n, r, m, apoc.text.jaroWinklerDistance(apoc.text.clean(n.text),
                                                  apoc.text.clean(m.text)) AS similarity] *)
Definition matchRows (apoc : Apoc) (g : Graph.Store) (query : string) : list Row :=
  omap (λ e,
    n ← Graph.nodes g !! Graph.e_source e;
    m ← Graph.nodes g !! Graph.e_target e;
    if Js.includes (Graph.n_text n) query || Js.includes (Graph.n_text m) query
    then Some (mkRow (Graph.n_text n) (Graph.e_context e) (Graph.n_text m)
                     (Graph.n_url n) (Graph.n_url m)
                     (jaroWinklerDistance apoc (clean apoc (Graph.n_text n))
                                               (clean apoc (Graph.n_text m))))
    else None) (Graph.edges g).

(** [WHERE similarity > 0.6] *)
Definition aboveThreshold (r : Row) : bool :=
  negb (Qle_bool (row_similarity r) (6 # 10)%Q).

(** [ORDER BY similarity DESC]: [r1] may stand before [r2]. *)
Definition bySimilarityDesc (r1 r2 : Row) : Prop :=
  Qle_bool (row_similarity r2) (row_similarity r1) = true.

Global Instance bySimilarityDesc_dec : RelDecision bySimilarityDesc.
Proof. intros r1 r2. unfold bySimilarityDesc. apply _. Defined.

(** The whole statement: filter, order, [LIMIT 10]. *)
Definition relatedRows (apoc : Apoc) (g : Graph.Store) (query : string) : list Row :=
  take 10 (merge_sort bySimilarityDesc
             (filter (λ r, aboveThreshold r = true) (matchRows apoc g query))).

(** An element of the array [queryRelatedConcepts] returns. *)
Record Relation : Type := mkRelation {
  source : string;
  relationship : string;
  target : string;
  sourceUrl : string;
  targetUrl : string;
  confidence : Fixed2
}.

Definition toRelation (r : Row) : Relation :=
  mkRelation (row_source r)
             (match row_relationship r with
              | Some c => Js.or_else c "related"
              | None => "related"
              end)
             (row_target r) (row_sourceUrl r) (row_targetUrl r)
             (toFixed2 (row_similarity r)).

(** [GraphRAG.queryRelatedConcepts(query)]; [fails] tells whether
    [session.run] rejects, in which case the [catch] returns [[]]. *)
Definition queryRelatedConcepts (apoc : Apoc) (fails : bool) (g : Graph.Store)
    (query : string) : list Relation :=
  if fails then [] else toRelation <$> relatedRows apoc g query.

End Retrieval.

(** ** The [/api/chat] handler *)

Module Chat.

Inductive Outcome (A : Type) : Type :=
  | Resolved (a : A)
  | Rejected (message : string).
Arguments Resolved {A} a.
Arguments Rejected {A} message.

(** A result of the full-text search: [result.document] and
    [result.highlights?.text]. *)
Record SearchHit : Type := mkHit {
  hit_text : string;
  hit_url : string;
  hit_highlights : option (list string)
}.

(** The collaborators of one request. *)
Record Services : Type := mkServices {
  search : string → Outcome (list SearchHit);
  graphFails : bool;
  complete : string → Outcome string;
  development : bool
}.

Record SearchContent : Type := mkSearchContent {
  sc_text : string;
  sc_url : string;
  sc_highlights : string
}.

Record SourceRef : Type := mkSourceRef {
  ref_text : string;
  ref_url : string
}.

Inductive Body : Type :=
  | ErrorBody (error : string) (details : option string)
  | ChatBody (response : string) (sources : list SourceRef).

Record Response : Type := mkResponse {
  status : nat;
  body : Body
}.

(** The line feed, ["\n"]. *)
Definition newline : string := String 10 EmptyString.

(** [parts.join(sep)] *)
Fixpoint join (sep : string) (parts : list string) : string :=
  match parts with
  | [] => ""
  | [p] => p
  | p :: rest => p +:+ sep +:+ join sep rest
  end.

(** The [searchContent] array built from the search results. *)
Definition searchContentOf (hits : list SearchHit) : list SearchContent :=
  (λ h, mkSearchContent (hit_text h) (hit_url h)
          (Js.or_else (from_option (join "...") "" (hit_highlights h)) "")) <$> hits.

(** The lines of [context], search results first, then graph relations. *)
Definition contextLines (searchContent : list SearchContent)
    (graphData : list Retrieval.Relation) : list string :=
  ((λ doc, "Relevant content (from " +:+ sc_url doc +:+ "): "
           +:+ Js.or_else (sc_highlights doc) (Js.substring0 200 (sc_text doc)))
     <$> searchContent)
  ++ ((λ rel, "Related concept: " +:+ Retrieval.source rel
              +:+ " (" +:+ Retrieval.sourceUrl rel +:+ ") "
              +:+ Retrieval.relationship rel +:+ " " +:+ Retrieval.target rel
              +:+ " (" +:+ Retrieval.targetUrl rel +:+ ")")
        <$> graphData).

Definition sourcesOf (searchContent : list SearchContent)
    (graphData : list Retrieval.Relation) : list SourceRef :=
  ((λ item, mkSourceRef (Js.substring0 200 (sc_text item) +:+ "...") (sc_url item))
     <$> searchContent)
  ++ ((λ item, mkSourceRef
                 (Retrieval.source item +:+ " " +:+ Retrieval.relationship item
                  +:+ " " +:+ Retrieval.target item)
                 (Js.or_else (Retrieval.sourceUrl item) (Retrieval.targetUrl item)))
        <$> graphData).

Definition tryAgainLater : string :=
  "Sorry, I'm having trouble finding that information. Please try again later.".

(** The [catch] of the handler. *)
Definition serverError (sv : Services) (message : string) : Response :=
  mkResponse 500 (ErrorBody tryAgainLater (if development sv then Some message else None)).

(** The user message sent to the language model. *)
Definition promptOf (message : string) (searchContent : list SearchContent)
    (graphData : list Retrieval.Relation) : string :=
  let context := join (newline +:+ newline) (contextLines searchContent graphData) in
  "Question: " +:+ message +:+ newline +:+ newline +:+ "Context:" +:+ newline +:+ context.

(** The callback of [app.post('/api/chat', ...)] from [if (!message)] on,
    that is once [req.body] has been destructured: [message] is the body's
    [message] field ([None] when absent). The whole callback is [apiChat]
    below. *)
Definition chat (sv : Services) (apoc : Retrieval.Apoc) (g : Graph.Store)
    (message : option string) : Response :=
  match message with
  | None => mkResponse 400 (ErrorBody "Message is required" None)
  | Some message =>
      if negb (Js.truthy message)
      then mkResponse 400 (ErrorBody "Message is required" None)
      else
        match search sv message with
        | Rejected err => serverError sv err
        | Resolved hits =>
            let searchContent := searchContentOf hits in
            let graphData := Retrieval.queryRelatedConcepts apoc (graphFails sv) g message in
            match complete sv (promptOf message searchContent graphData) with
            | Rejected err => serverError sv err
            | Resolved answer =>
                mkResponse 200 (ChatBody answer (sourcesOf searchContent graphData))
            end
        end
  end.

(** [req.body] when the callback starts: [undefined] unless a body-parsing
    middleware has run on the request, else the parsed object, of which the
    callback reads the [message] field. *)
Inductive RequestBody : Type :=
  | BodyUndefined
  | BodyParsed (message : option string).

Global Instance RequestBody_eq_dec : EqDecision RequestBody.
Proof. solve_decision. Defined.

(** The callback of [app.post('/api/chat', ...)] as a whole.
    [const { message, userId } = req.body] stands before the [try]: on an
    undefined body it throws, the callback's promise rejects, and the
    callback sends no response ([None]). *)
Definition apiChat (sv : Services) (apoc : Retrieval.Apoc) (g : Graph.Store)
    (body : RequestBody) : option Response :=
  match body with
  | BodyUndefined => None
  | BodyParsed message => Some (chat sv apoc g message)
  end.

(** [req.body] as the middleware of this module leaves it for a request
    that posts [posted]. The module installs [cors] alone before its routes;
    [body-parser] is required but never handed to [app.use], so nothing
    parses the posted JSON. *)
Definition requestBody (posted : option string) : RequestBody := BodyUndefined.

(** The graph part of the context bundle a request builds, when it gets
    that far. *)
Definition graphContribution (sv : Services) (apoc : Retrieval.Apoc) (g : Graph.Store)
    (message : string) : list Retrieval.Relation :=
  Retrieval.queryRelatedConcepts apoc (graphFails sv) g message.

End Chat.

(** ** The crawler ([scrapeWebsite]) *)

Module Crawler.

(** What the rendered page exposes to the scripts the crawler evaluates. *)
Record Element : Type := mkElement {
  el_tag : string;
  el_textContent : string
}.

Record Image : Type := mkImage {
  img_src : string;
  img_dataSrc : option string;
  img_alt : string
}.

Record Anchor : Type := mkAnchor {
  a_href : string;
  a_textContent : string
}.

Record Document : Type := mkDocument {
  doc_html : string;
  doc_elements : list Element;
  doc_images : list Image;
  doc_anchors : list Anchor
}.

Definition blank : Document := mkDocument "" [] [] [].

(** The browser and the engine, as far as the crawler uses them.
    - [goto doc url]: [page.goto(url, ...)] from a page showing [doc]; the
      flag tells whether navigation resolved, the document is what the page
      shows afterwards.
    - [resolveUrl src base]: [new URL(src, base).toString()], [None] when the
      constructor throws.
    - [parseUrl link]: [new URL(link).toString()], [None] when it throws.
    - [sort cmp links]: [links.sort(cmp)]. *)
Record Browser : Type := mkBrowser {
  goto : Document → string → bool * Document;
  resolveUrl : string → string → option string;
  parseUrl : string → option string;
  sort : (string → string → Z) → list string → list string
}.

Definition BASE_URL : string := "https://www.madewithnestle.ca".
Definition MAX_PAGES : nat := 950.

(** The variables of one run that the loop and its helpers close over.
    [crawled] is the console's list of ["Crawling (k/950): url"] lines. *)
Record Crawl : Type := mkCrawl {
  page : Document;
  visitedUrls : gset string;
  scrapedData : list RawItem;
  queue : list string;
  crawled : list string
}.

Definition start : Crawl := mkCrawl blank ∅ [] [BASE_URL] [].

Definition shouldCrawl (visitedUrls : gset string) (url : string) : bool :=
  let isFilterPage := Js.includes url "recipes?f%5B" || Js.includes url "recipe_tags_filter" in
  Js.startsWith url BASE_URL
  && negb isFilterPage
  && negb (Js.includes url "#")
  && negb (Js.includes url "facebook.com")
  && negb (Js.includes url "twitter.com")
  && negb (bool_decide (url ∈ visitedUrls)).

(** The comparator handed to [sort]. *)
Definition recipeFirst (a b : string) : Z :=
  if Js.includes a "/recipe/" then (-1)%Z
  else if Js.includes b "/recipe/" then 1%Z
  else 0%Z.

Definition prioritizeLinks (B : Browser) (links : list string) : list string :=
  sort B recipeFirst links.

Definition selectors : list string := ["h1"; "h2"; "h3"; "h4"; "p"; "li"; "span"].

(** The text items of one selector. *)
Definition textItems (doc : Document) (currentUrl selector : string) : list RawItem :=
  omap (λ el,
    if bool_decide (el_tag el = selector) then
      let text := Js.trim (el_textContent el) in
      if Js.truthy text && (10 <? String.length text)
      then Some (RawContent selector text currentUrl)
      else None
    else None) (doc_elements doc).

(** The image items; [None] when a [new URL(src, currentUrl)] throws. *)
Fixpoint imageItems (B : Browser) (currentUrl : string) (imgs : list Image)
    : option (list RawItem) :=
  match imgs with
  | [] => Some []
  | el :: rest =>
      let src := if Js.truthy (img_src el) then Some (img_src el) else img_dataSrc el in
      match src with
      | None => imageItems B currentUrl rest
      | Some src =>
          if Js.truthy src then
            url ← (if Js.startsWith src "http" then Some src else resolveUrl B src currentUrl);
            items ← imageItems B currentUrl rest;
            Some (RawContent "image" (Js.substring0 200 (img_alt el)) url :: items)
          else imageItems B currentUrl rest
      end
  end.

Definition linkItems (doc : Document) : list RawItem :=
  omap (λ el,
    let href := a_href el in
    if Js.truthy href && Js.startsWith href "http"
    then Some (RawContent "link"
                 (Js.or_else (Js.trim (a_textContent el)) (Js.substring0 200 href)) href)
    else None) (doc_anchors doc).

(** [item.text && item.url] *)
Definition hasTextAndUrl (item : RawItem) : bool :=
  match item with
  | RawContent _ text url => Js.truthy text && Js.truthy url
  | RawHtml _ _ => false
  end.

(** The function handed to [page.evaluate] in [extractPageContent]. *)
Definition evaluateContent (B : Browser) (doc : Document) (currentUrl : string)
    : option (list RawItem) :=
  images ← imageItems B currentUrl (doc_images doc);
  Some (filter (λ item, hasTextAndUrl item = true)
          (concat (textItems doc currentUrl <$> selectors) ++ images ++ linkItems doc)).

(** [page.waitForSelector('h1, h2, p', ...)] resolves iff such an element
    is there. *)
Definition waitForSelector (doc : Document) : bool :=
  bool_decide (Exists (λ el, el_tag el ∈ ["h1"; "h2"; "p"]) (doc_elements doc)).

(** [extractPageContent(url)]: the returned array and the run's variables
    afterwards. Every failure inside the [try] ends in [return []]. *)
Definition extractPageContent (B : Browser) (url : string) (s : Crawl)
    : list RawItem * Crawl :=
  let '(loaded, doc) := goto B (page s) url in
  let s1 := mkCrawl doc (visitedUrls s) (scrapedData s) (queue s) (crawled s) in
  if negb loaded then ([], s1)
  else
    let s2 := mkCrawl doc (visitedUrls s) (scrapedData s ++ [RawHtml url (doc_html doc)])
                (queue s) (crawled s) in
    if Js.includes url "/recipe/" && negb (waitForSelector doc) then ([], s2)
    else
      match evaluateContent B doc url with
      | None => ([], s2)
      | Some data => (data, s2)
      end.

(** [prioritizeLinks(links).forEach(link => ...)]; a throwing [new URL(link)]
    ends the [forEach] in the page's [catch], with the queue as it is. *)
Fixpoint enqueueLinks (B : Browser) (visited : gset string) (links queue : list string)
    : list string :=
  match links with
  | [] => queue
  | link :: rest =>
      if shouldCrawl visited link then
        match parseUrl B link with
        | None => queue
        | Some normalizedLink =>
            enqueueLinks B visited rest
              (if Js.arrayIncludes queue normalizedLink then queue
               else queue ++ [normalizedLink])
        end
      else enqueueLinks B visited rest queue
  end.

(** One test of the [while] condition and, when it holds, one iteration of
    the body; [None] when the loop exits. *)
Definition step (B : Browser) (s : Crawl) : option Crawl :=
  match queue s with
  | [] => None
  | currentUrl :: rest =>
      if size (visitedUrls s) <? MAX_PAGES then
        if negb (shouldCrawl (visitedUrls s) currentUrl)
        then Some (mkCrawl (page s) (visitedUrls s) (scrapedData s) rest (crawled s))
        else
          let s1 := mkCrawl (page s) ({[currentUrl]} ∪ visitedUrls s) (scrapedData s) rest
                      (crawled s ++ [currentUrl]) in
          let '(pageData, s2) := extractPageContent B currentUrl s1 in
          let links := filter (λ href, Js.truthy href = true) (a_href <$> doc_anchors (page s2)) in
          Some (mkCrawl (page s2) (visitedUrls s2) (scrapedData s2 ++ pageData)
                  (enqueueLinks B (visitedUrls s2) (prioritizeLinks B links) (queue s2))
                  (crawled s2))
      else None
  end.

(** The [while] loop; [None] when [fuel] iterations were not enough. *)
Fixpoint crawlLoop (B : Browser) (fuel : nat) (s : Crawl) : option Crawl :=
  match step B s with
  | None => Some s
  | Some s' =>
      match fuel with
      | 0 => None
      | S fuel' => crawlLoop B fuel' s'
      end
  end.

(** The run's variables after [n] tests of the loop condition (unchanged
    once the loop has exited). *)
Fixpoint after (B : Browser) (n : nat) (s : Crawl) : Crawl :=
  match n with
  | 0 => s
  | S n' => match step B s with
            | None => s
            | Some s' => after B n' s'
            end
  end.

(** [scrapeWebsite()] from a launched browser: the returned [scrapedData]
    and the graph session of the final ingestion, if any. *)
Definition scrapeWebsite (B : Browser) (fuel : nat) (fails : nat → bool) (g : Graph.Store)
    : option (list RawItem * option Graph.Session) :=
  s ← crawlLoop B fuel start;
  Some (scrapedData s,
        if 0 <? length (scrapedData s)
        then Some (Graph.ingestContent fails g (scrapedData s))
        else None).

(** The urls of the [{url, html}] records in [scrapedData], in order. *)
Definition htmlRecords (data : list RawItem) : list string :=
  omap (λ item, match item with RawHtml url _ => Some url | RawContent _ _ _ => None end) data.

(** The admission rules of [shouldCrawl] that do not depend on the run. *)
Definition admissible (url : string) : Prop :=
  Js.startsWith url BASE_URL = true
  ∧ Js.includes url "recipes?f%5B" = false
  ∧ Js.includes url "recipe_tags_filter" = false
  ∧ Js.includes url "#" = false
  ∧ Js.includes url "facebook.com" = false
  ∧ Js.includes url "twitter.com" = false.

(** A browser on which every navigation fails and leaves the page as it is. *)
Definition offline : Browser :=
  mkBrowser (λ current _, (false, current)) (λ _ _, None) (λ _, None) (λ _ links, links).

(** A small site to run the crawler on: a home page that links to one
    recipe, to itself and to a social page; every other navigation fails and
    leaves the page as it is. *)
Definition recipeUrl : string := BASE_URL +:+ "/recipe/cookies".

Definition homePage : Document :=
  mkDocument "<html>home</html>"
    [mkElement "h1" "  Made with Nestle recipes  "; mkElement "p" "short"]
    [mkImage "https://www.madewithnestle.ca/logo.png" None "Nestle logo"]
    [mkAnchor recipeUrl "Cookies"; mkAnchor BASE_URL "Home";
     mkAnchor "https://www.facebook.com/nestle" ""].

Definition recipePage : Document :=
  mkDocument "<html>cookies</html>"
    [mkElement "h1" "Chocolate chip cookies";
     mkElement "p" "Mix the chocolate chips into the dough."]
    []
    [mkAnchor BASE_URL "Home"].

(** An insertion sort, standing for the engine's [sort] on this site. *)
Fixpoint insertBy (cmp : string → string → Z) (x : string) (l : list string) : list string :=
  match l with
  | [] => [x]
  | y :: rest => if (cmp x y <=? 0)%Z then x :: l else y :: insertBy cmp x rest
  end.

Definition insertionSort (cmp : string → string → Z) (l : list string) : list string :=
  foldr (insertBy cmp) [] l.

Definition smallSite : Browser :=
  mkBrowser
    (λ current url,
       if bool_decide (url = BASE_URL) then (true, homePage)
       else if bool_decide (url = recipeUrl) then (true, recipePage)
       else (false, current))
    (λ src _, Some src)
    (λ link, Some link)
    insertionSort.

End Crawler.

(** ** The index publisher ([uploadToAzureSearch]) *)

Module Publisher.

Record SearchDocument : Type := mkDocument {
  action : string;
  id : string;
  text : string;
  url : string;
  category : string
}.

Definition MAX_BATCH_SIZE : nat := Z.to_nat 30000.

(** [item && item.text && typeof item.text === 'string'] *)
Definition hasText (item : RawItem) : bool :=
  match item with
  | RawContent _ text _ => Js.truthy text
  | RawHtml _ _ => false
  end.

(** The mapping of one kept item at position [index]; [now] is the value
    [Date.now()] returns there. *)
Definition toDocument (now : nat → N) (index : nat) (item : RawItem) : SearchDocument :=
  match item with
  | RawContent type text url =>
      mkDocument "upload" ("doc-" +:+ Js.numeral (Z.of_nat index) +:+ "-" +:+ Js.numeral (Z.of_N (now index)))
        (Js.substring0 1000 text) url (Js.or_else type "unknown")
  | RawHtml url _ =>
      mkDocument "upload" ("doc-" +:+ Js.numeral (Z.of_nat index) +:+ "-" +:+ Js.numeral (Z.of_N (now index)))
        "" url "unknown"
  end.

Definition validDocuments (now : nat → N) (content : list RawItem) : list SearchDocument :=
  imap (toDocument now) (filter (λ item, hasText item = true) content).

Inductive Event : Type :=
  | LogPreparing (documents : nat)
  | LogUploaded (batchNumber size : nat)
  | LogBatchError (batchNumber : nat)
  | LogFinished (documents : nat).

(** The calls of [searchClient.uploadDocuments] made so far and the console. *)
Record Uploader : Type := mkUploader {
  uploads : list (list SearchDocument);
  console : list Event
}.

(** The body of the batch loop: its own [try]/[catch] swallows a rejected
    upload. [fails k] tells whether the [k]-th upload rejects. *)
Definition uploadBatch (fails : nat → bool) (batch : list SearchDocument) (s : Uploader)
    : Completion Uploader :=
  let k := length (uploads s) in
  Normal (mkUploader (uploads s ++ [batch])
            (console s ++ [if fails k then LogBatchError (k + 1)
                           else LogUploaded (k + 1) (length batch)])).

(** [uploadToAzureSearch(content)] *)
Definition uploadToAzureSearch (now : nat → N) (fails : nat → bool) (content : list RawItem)
    : Completion Uploader :=
  let validDocuments := validDocuments now content in
  let s0 := mkUploader [] [LogPreparing (length validDocuments)] in
  match forBatches (length validDocuments) MAX_BATCH_SIZE 0 validDocuments
          (uploadBatch fails) s0 with
  | Normal s => Normal (mkUploader (uploads s) (console s ++ [LogFinished (length validDocuments)]))
  | Thrown s => Thrown s
  end.

End Publisher.

(** ** Start-up ([ensureSearchIndex], [initializeServices]) *)

Module Startup.

(** The outcome of [indexClient.getIndex(indexName)]: found, or rejected
    with the error's [statusCode] (if any) and [message]. *)
Inductive GetIndex : Type :=
  | IndexFound
  | GetIndexFails (statusCode : option nat) (message : string).

Record IndexService : Type := mkIndexService {
  getIndex : GetIndex;
  createIndex : Chat.Outcome unit
}.

(** What [ensureSearchIndex] did: whether it called [createIndex], and
    whether it returned or threw. *)
Record Ensured : Type := mkEnsured {
  createCalled : bool;
  ensured : Chat.Outcome unit
}.

(** [ensureSearchIndex()]: the outer [catch] logs and rethrows. *)
Definition ensureSearchIndex (svc : IndexService) : Ensured :=
  match getIndex svc with
  | IndexFound => mkEnsured false (Chat.Resolved tt)
  | GetIndexFails statusCode message =>
      if bool_decide (statusCode = Some 404)
      then mkEnsured true (createIndex svc)
      else mkEnsured false (Chat.Rejected message)
  end.

(** What the services answer in the [k]-th attempt: the index service, and
    whether [scrapeWebsite] returns its content or throws. *)
Record World : Type := mkWorld {
  indexService : nat → IndexService;
  scrape : nat → Chat.Outcome (list RawItem)
}.

(** The [try] block of one attempt: the content handed to
    [uploadToAzureSearch], if any, or the error thrown. *)
Definition attempt (w : World) (k : nat) : Chat.Outcome (option (list RawItem)) :=
  match ensured (ensureSearchIndex (indexService w k)) with
  | Chat.Rejected err => Chat.Rejected err
  | Chat.Resolved _ =>
      match scrape w k with
      | Chat.Rejected err => Chat.Rejected err
      | Chat.Resolved content =>
          Chat.Resolved (if 0 <? length content then Some content else None)
      end
  end.

Record Started : Type := mkStarted {
  attemptsMade : nat;
  sleeps : nat;
  uploadsStarted : list (list RawItem);
  errorsLogged : list string;
  result : Chat.Outcome unit
}.

(** [while (retries > 0) { try { ...; return } catch { retries--; ... } }]
    from attempt number [k] on. *)
Fixpoint retry (w : World) (retries k : nat) : Started :=
  match retries with
  | 0 => mkStarted 0 0 [] [] (Chat.Resolved tt)
  | S retries' =>
      match attempt w k with
      | Chat.Resolved uploaded =>
          mkStarted 1 0 (option_list uploaded) [] (Chat.Resolved tt)
      | Chat.Rejected err =>
          if retries' =? 0 then mkStarted 1 0 [] [err] (Chat.Rejected err)
          else
            let later := retry w retries' (S k) in
            mkStarted (S (attemptsMade later)) (S (sleeps later)) (uploadsStarted later)
              (err :: errorsLogged later) (result later)
      end
  end.

(** [initializeServices()] *)
Definition initializeServices (w : World) : Started := retry w 3 0.

End Startup.

(** ** The chat widget ([handleSend]) *)

Module Frontend.

(** An entry of [messages]; [msg_text] is [None] when the text is
    [undefined]. *)
Record Message : Type := mkMessage {
  msg_text : option string;
  sender : string
}.

Record Widget : Type := mkWidget {
  messages : list Message;
  input : string;
  isLoading : bool
}.

(** What [axios.post] comes back with: a response sent by the handler, or
    none of its (a timeout, a network error, or the framework's own error
    page, whose body has no [error] field). *)
Inductive PostResult : Type :=
  | Answered (r : Chat.Response)
  | NoResponse.

Definition connectError : string :=
  "Sorry, I'm having trouble connecting. Please try again later.".

(** The text of the bot's message: [response.data.response] for a 2xx
    status, [error.response?.data?.error || connectError] otherwise. *)
Definition replyText (res : PostResult) : option string :=
  match res with
  | NoResponse => Some connectError
  | Answered r =>
      if (200 <=? Chat.status r) && (Chat.status r <? 300) then
        match Chat.body r with
        | Chat.ChatBody response _ => Some response
        | Chat.ErrorBody _ _ => None
        end
      else
        match Chat.body r with
        | Chat.ErrorBody error _ => Some (Js.or_else error connectError)
        | Chat.ChatBody _ _ => Some connectError
        end
  end.

(** [handleSend()] run to its end: the widget afterwards and the messages
    posted to the API. *)
Definition handleSend (post : string → PostResult) (w : Widget) : Widget * list string :=
  if bool_decide (Js.trim (input w) = "") then (w, [])
  else
    (mkWidget (messages w ++ [mkMessage (Some (input w)) "user";
                              mkMessage (replyText (post (input w))) "bot"])
       "" false,
     [input w]).

(** The API as the server of this repository answers a post of
    [{ message }]: the request passes the module's middleware and reaches the
    callback of [/api/chat]. *)
Definition serverPost (sv : Chat.Services) (apoc : Retrieval.Apoc) (g : Graph.Store)
    (message : string) : PostResult :=
  match Chat.apiChat sv apoc g (Chat.requestBody (Some message)) with
  | Some r => Answered r
  | None => NoResponse
  end.

End Frontend.

(** * Properties *)

(** ** Batch loops *)

Section Batches.
Context {A : Type}.
Implicit Types (items : list A) (size fuel i : nat).

Lemma elem_of_concat (x : A) (ls : list (list A)) :
  x ∈ concat ls ↔ ∃ l, x ∈ l ∧ l ∈ ls.
Proof.
  induction ls as [|l ls IH]; simpl.
  - split; [by intros ?%elem_of_nil|]. by intros (? & _ & ?%elem_of_nil).
  - rewrite elem_of_app, IH. split.
    + intros [?|(l' & ? & ?)]; [exists l|exists l']; split; auto; [left|by right].
    + intros (l' & ? & [->|?]%elem_of_cons); [by left|right; eauto].
Qed.

Lemma slice_length size i items :
  length (Js.slice i (i + size) items) = size `min` (length items - i).
Proof.
  unfold Js.slice. rewrite length_take, length_drop.
  replace (i + size - i) with size by lia. done.
Qed.

Lemma batchesFrom_fuel size fuel fuel' i items :
  0 < size → length items - i ≤ fuel → length items - i ≤ fuel' →
  batchesFrom fuel size i items = batchesFrom fuel' size i items.
Proof.
  intros Hsize. revert fuel' i.
  induction fuel as [|fuel IH]; intros fuel' i Hf Hf'.
  - destruct fuel' as [|fuel']; [done|]. simpl.
    destruct (Nat.ltb_spec i (length items)); [lia|done].
  - simpl. destruct (Nat.ltb_spec i (length items)) as [Hlt|Hge].
    + destruct fuel' as [|fuel']; [lia|]. simpl.
      destruct (Nat.ltb_spec i (length items)); [|lia].
      f_equal. apply IH; lia.
    + destruct fuel' as [|fuel']; [done|]. simpl.
      destruct (Nat.ltb_spec i (length items)); [lia|done].
Qed.

(** The loop cuts the rest of the array into consecutive pieces. *)
Lemma batchesFrom_concat size fuel i items :
  0 < size → length items - i ≤ fuel →
  concat (batchesFrom fuel size i items) = drop i items.
Proof.
  intros Hsize. revert i.
  induction fuel as [|fuel IH]; intros i Hf; simpl.
  - rewrite drop_ge; [done|lia].
  - destruct (Nat.ltb_spec i (length items)) as [Hlt|Hge].
    + simpl. rewrite IH by lia. unfold Js.slice.
      replace (i + size - i) with size by lia.
      rewrite <- drop_drop. apply take_drop.
    + rewrite drop_ge; [done|lia].
Qed.

Lemma batchesFrom_sizes size fuel i items batch :
  0 < size → batch ∈ batchesFrom fuel size i items → 0 < length batch ≤ size.
Proof.
  intros Hsize. revert i. induction fuel as [|fuel IH]; intros i; simpl.
  - by intros ?%elem_of_nil.
  - destruct (Nat.ltb_spec i (length items)) as [Hlt|Hge].
    + intros [->|Hin]%elem_of_cons; [|by eapply IH].
      rewrite slice_length. lia.
    + by intros ?%elem_of_nil.
Qed.

(** The number of iterations [k] is the least with [len - i <= k * size]. *)
Lemma batchesFrom_count size fuel i items :
  0 < size → length items - i ≤ fuel →
  let k := length (batchesFrom fuel size i items) in
  length items - i ≤ k * size ∧ k * size < length items - i + size.
Proof.
  intros Hsize. revert i.
  induction fuel as [|fuel IH]; intros i Hf; simpl.
  - lia.
  - destruct (Nat.ltb_spec i (length items)) as [Hlt|Hge]; simpl; [|lia].
    specialize (IH (i + size) ltac:(lia)). simpl in IH.
    destruct (length (batchesFrom fuel size (i + size) items)) as [|k]; lia.
Qed.

(** The indexed loop runs its body on exactly these batches. *)
Lemma forBatches_batches {S} fuel size i items (body : list A → S → Completion S) s :
  forBatches fuel size i items body s
  = forEachBatch body (batchesFrom fuel size i items) s.
Proof.
  revert i s. induction fuel as [|fuel IH]; intros i s; simpl; [done|].
  destruct (i <? length items); simpl; [|done].
  destruct (body _ s); [apply IH|done].
Qed.

(** [length items] iterations are enough: more fuel changes nothing. *)
Lemma forBatches_fuel {S} size fuel items (body : list A → S → Completion S) s :
  0 < size → length items ≤ fuel →
  forBatches fuel size 0 items body s = forBatches (length items) size 0 items body s.
Proof.
  intros. rewrite !forBatches_batches.
  f_equal. apply batchesFrom_fuel; lia.
Qed.

Lemma batchesOf_concat size items : 0 < size → concat (batchesOf size items) = items.
Proof. intros. unfold batchesOf. rewrite batchesFrom_concat by lia. done. Qed.

Lemma forEachBatch_app {S} (body : list A → S → Completion S) bs1 bs2 s :
  forEachBatch body (bs1 ++ bs2) s
  = match forEachBatch body bs1 s with
    | Normal s' => forEachBatch body bs2 s'
    | Thrown s' => Thrown s'
    end.
Proof.
  revert s. induction bs1 as [|b bs1 IH]; intros s; simpl; [done|].
  destruct (body b s); [apply IH|done].
Qed.

End Batches.

(** ** JavaScript strings *)

Lemma substring0_length n s : String.length (Js.substring0 n s) ≤ n.
Proof.
  unfold Js.substring0. revert s.
  induction n as [|n IH]; intros [|c s]; simpl; try lia.
  specialize (IH s). lia.
Qed.

(** [trim] strips the no-break space, the byte order mark and the other
    white space of the language at both ends, and nothing inside. *)
Example trim_unicode_space :
  Js.trim (String 160 "") = ""
  ∧ Js.trim (String 65279 (String 160 (" hot cocoa" +:+ String 8195 (String 10 ""))))
    = "hot cocoa".
Proof. split; reflexivity. Qed.

Lemma truthy_spec s : Js.truthy s = true ↔ s ≠ "".
Proof. destruct s; simpl; split; congruence. Qed.

Lemma arrayIncludes_spec l x : Js.arrayIncludes l x = true ↔ x ∈ l.
Proof. unfold Js.arrayIncludes. apply bool_decide_eq_true. Qed.

(** ** Content normalisation *)

Lemma isValid_spec item :
  Normalizer.isValid item = true ↔
  ∃ type text url, item = RawContent type text url
    ∧ text ≠ "" ∧ 10 < String.length text ∧ type ∈ Normalizer.graphTypes.
Proof.
  destruct item as [url html|type text url]; simpl.
  - split; [done|]. by intros (?&?&?&?&?).
  - rewrite !andb_true_iff, truthy_spec, Nat.ltb_lt, arrayIncludes_spec.
    split.
    + intros [[? ?] ?]. by exists type, text, url.
    + intros (?&?&?&[= <- <- <-]&?&?&?). done.
Qed.

Example validContent_sample :
  Normalizer.validContent
    [RawHtml "https://x.ca/a" "<html></html>";
     RawContent "h2" "Fun Facts about cocoa" "https://x.ca/a";
     RawContent "span" "a span that is long enough" "https://x.ca/a";
     RawContent "p" "too short" "https://x.ca/a";
     RawContent "image" "a picture of a chocolate bar" "https://x.ca/i.png"]
  = [mkNormalized "h2" "Fun Facts about cocoa" "https://x.ca/a"
       "https://x.ca/a-Fun_Facts_about_cocoa"].
Proof. reflexivity. Qed.

(** Texts outside ASCII: "it's cocoa" with a right single quotation mark
    (U+2019) has 10 code units and is dropped; "KitKat" followed by the
    trade mark sign (U+2122) and " bars" has 12 and is kept, the sign and
    the blank each replaced by one underscore in the id. *)
Example validContent_code_units :
  Normalizer.validContent
    [RawContent "p" ("it" +:+ String 8217 "s cocoa") "https://x.ca/a";
     RawContent "p" ("KitKat" +:+ String 8482 " bars") "https://x.ca/a"]
  = [mkNormalized "p" ("KitKat" +:+ String 8482 " bars") "https://x.ca/a"
       "https://x.ca/a-KitKat__bars"].
Proof. reflexivity. Qed.


(** ** The index publisher *)

Lemma MAX_BATCH_SIZE_pos : 0 < Publisher.MAX_BATCH_SIZE.
Proof. unfold Publisher.MAX_BATCH_SIZE. lia. Qed.

Lemma uploadBatch_all fails batches s :
  ∃ s', forEachBatch (Publisher.uploadBatch fails) batches s = Normal s'
        ∧ Publisher.uploads s' = Publisher.uploads s ++ batches.
Proof.
  revert s. induction batches as [|b bs IH]; intros s; simpl.
  - exists s. by rewrite app_nil_r.
  - edestruct IH as (s' & -> & Hs'). exists s'. split; [done|].
    rewrite Hs'. simpl. by rewrite <- app_assoc.
Qed.

(** Every batch is uploaded, whichever uploads reject. *)
Lemma uploads_are_batches now fails content :
  ∃ s, Publisher.uploadToAzureSearch now fails content = Normal s
       ∧ Publisher.uploads s
         = batchesOf Publisher.MAX_BATCH_SIZE (Publisher.validDocuments now content).
Proof.
  unfold Publisher.uploadToAzureSearch. rewrite forBatches_batches.
  edestruct uploadBatch_all as (s' & -> & Hs'). eexists. split; [done|].
  simpl. rewrite Hs'. done.
Qed.

Lemma validDocuments_text now content doc :
  doc ∈ Publisher.validDocuments now content → String.length (Publisher.text doc) ≤ 1000.
Proof.
  unfold Publisher.validDocuments.
  intros (i & item & -> & _)%elem_of_lookup_imap.
  destruct item; simpl; [lia|apply substring0_length].
Qed.

Lemma substring_head_length (n : nat) (s : string) :
  String.length (String.substring 0 n s) = String.length s `min` n.
Proof.
  revert s. induction n as [|n IH]; intros [|c s]; simpl; try done.
  by rewrite IH.
Qed.

Lemma substring_short (n : nat) (s : string) :
  String.length s ≤ n → String.substring 0 n s = s.
Proof.
  revert s. induction n as [|n IH]; intros [|c s]; simpl; try done; [lia|].
  intros Hlen. f_equal. apply IH. lia.
Qed.

Lemma substring_head_prefix (n : nat) (s : string) :
  String.prefix (String.substring 0 n s) s = true.
Proof.
  revert s. induction n as [|n IH]; intros [|c s]; simpl; try done.
  by rewrite decide_True.
Qed.

Lemma fmap_imap_pointwise {A B C} (f : nat → A → B) (g : B → C) (h : A → C) (l : list A) :
  (∀ i x, x ∈ l → g (f i x) = h x) → g <$> imap f l = h <$> l.
Proof.
  revert f. induction l as [|x l IH]; intros f Hf; simpl; [done|]. f_equal.
  - apply Hf. by left.
  - apply IH. intros i y Hy. apply Hf. by right.
Qed.

(** The text and url of the documents, in order, read off the input. *)
Lemma validDocuments_fields now content :
  (λ doc, (Publisher.text doc, Publisher.url doc)) <$> Publisher.validDocuments now content
  = omap (λ item, match item with
                  | RawContent _ text url =>
                      if decide (text = "") then None
                      else Some (String.substring 0 1000 text, url)
                  | RawHtml _ _ => None
                  end) content.
Proof.
  unfold Publisher.validDocuments.
  rewrite (fmap_imap_pointwise _ _
             (λ item, match item with
                      | RawContent _ text url => (String.substring 0 1000 text, url)
                      | RawHtml url _ => ("", url)
                      end)) by (by intros i [|]).
  induction content as [|item content IH]; [done|].
  rewrite filter_cons. destruct item as [url html|type [|c text] url].
  - rewrite decide_False by done. exact IH.
  - rewrite decide_False by done. exact IH.
  - rewrite decide_True by done. cbn [omap list_omap]. rewrite decide_False by done.
    rewrite fmap_cons. f_equal. exact IH.
Qed.

Lemma validDocuments_source now content doc :
  doc ∈ Publisher.validDocuments now content →
  ∃ type text url, RawContent type text url ∈ content ∧ text ≠ ""
    ∧ Publisher.url doc = url
    ∧ Publisher.text doc = String.substring 0 1000 text.
Proof.
  unfold Publisher.validDocuments.
  intros (i & item & -> & Hitem)%elem_of_lookup_imap.
  apply list_elem_of_lookup_2, list_elem_of_filter in Hitem as [Htext Hin].
  destruct item as [|type text u]; [done|]. simpl in Htext.
  apply truthy_spec in Htext. by exists type, text, u.
Qed.

(** C10. Whatever the input and whichever uploads reject,
    [uploadToAzureSearch] returns normally; each batch it hands to
    [uploadDocuments] has at most 30000 documents; every uploaded document's
    text has at most 1000 characters (UTF-16 code units, as [substring]
    counts them): it is the text of an input item cut after its first 1000
    units, and that item's text itself when it has no more; the uploaded
    documents are, in the order of the input, one for each item with a
    non-empty text, with that item's url; and 35000 valid documents make
    exactly 2 batches. *)
Theorem upload_batches_bounded (now : nat → N) (fails : nat → bool) (content : list RawItem) :
  let r := Publisher.uploadToAzureSearch now fails content in
  hasThrown r = false
  ∧ (∀ batch, batch ∈ Publisher.uploads (stateOf r) → (Z.of_nat (length batch) ≤ 30000)%Z)
  ∧ (∀ batch doc, batch ∈ Publisher.uploads (stateOf r) → doc ∈ batch →
       String.length (Publisher.text doc) ≤ 1000
       ∧ ∃ type text url,
           RawContent type text url ∈ content ∧ text ≠ ""
           ∧ Publisher.url doc = url
           ∧ String.prefix (Publisher.text doc) text = true
           ∧ String.length (Publisher.text doc) = String.length text `min` 1000
           ∧ (String.length text ≤ 1000 → Publisher.text doc = text))
  ∧ (λ doc, (Publisher.text doc, Publisher.url doc))
      <$> concat (Publisher.uploads (stateOf r))
    = omap (λ item, match item with
                    | RawContent _ text url =>
                        if decide (text = "") then None
                        else Some (String.substring 0 1000 text, url)
                    | RawHtml _ _ => None
                    end) content
  ∧ concat (Publisher.uploads (stateOf r)) = Publisher.validDocuments now content
  ∧ (Z.of_nat (length (Publisher.validDocuments now content)) = 35000%Z →
       length (Publisher.uploads (stateOf r)) = 2).
Proof.
  intros r. subst r.
  destruct (uploads_are_batches now fails content) as (s & -> & Hs). simpl.
  pose proof MAX_BATCH_SIZE_pos as Hpos.
  assert (Hcat : concat (Publisher.uploads s) = Publisher.validDocuments now content).
  { rewrite Hs. by apply batchesOf_concat. }
  split_and!; [done| | | |done|].
  - intros batch Hin. rewrite Hs in Hin.
    apply batchesFrom_sizes in Hin; [|done].
    unfold Publisher.MAX_BATCH_SIZE in Hin. lia.
  - intros batch doc Hb Hd.
    assert (doc ∈ Publisher.validDocuments now content) as Hdoc.
    { rewrite <- Hcat. apply elem_of_concat. eauto. }
    split; [by apply (validDocuments_text now content)|].
    destruct (validDocuments_source now content doc Hdoc)
      as (type & text & url & Hin & Hne & Hurl & Htext).
    exists type, text, url. rewrite Htext.
    split_and!; [done|done|done|apply substring_head_prefix|apply substring_head_length|].
    intros Hlen. apply substring_short. exact Hlen.
  - rewrite Hcat. apply validDocuments_fields.
  - intros Hlen. rewrite Hs. unfold batchesOf.
    pose proof (batchesFrom_count Publisher.MAX_BATCH_SIZE
                  (length (Publisher.validDocuments now content)) 0
                  (Publisher.validDocuments now content) Hpos ltac:(lia)) as Hk.
    cbv zeta in Hk. revert Hk.
    generalize (length (batchesFrom (length (Publisher.validDocuments now content))
                          Publisher.MAX_BATCH_SIZE 0 (Publisher.validDocuments now content))).
    intros k Hk.
    assert (Z.of_nat (k * Publisher.MAX_BATCH_SIZE) = Z.of_nat k * 30000)%Z as Hmul.
    { unfold Publisher.MAX_BATCH_SIZE. rewrite Nat2Z.inj_mul, Z2Nat.id; lia. }
    assert (Z.of_nat Publisher.MAX_BATCH_SIZE = 30000%Z) as Hmax.
    { unfold Publisher.MAX_BATCH_SIZE. lia. }
    lia.
Qed.

(** A text of 1001 accented letters (U+00E9) is uploaded as its first
    1000; a short one as it is; the [{url, html}] record not at all. *)
Example upload_truncates_long_text :
  let long := String.ofUnits (replicate 1001 233%N) in
  (λ doc, (Publisher.text doc, Publisher.url doc))
    <$> concat (Publisher.uploads (stateOf (Publisher.uploadToAzureSearch (λ _, 0%N) (λ _, true)
                  [RawHtml "https://x.ca/a" "<html></html>";
                   RawContent "p" long "https://x.ca/a";
                   RawContent "h1" ("Nestl" +:+ String 233 "") "https://x.ca/b"])))
  = [(String.ofUnits (replicate 1000 233%N), "https://x.ca/a");
     ("Nestl" +:+ String 233 "", "https://x.ca/b")].
Proof. vm_compute. reflexivity. Qed.

(** A run on 35000 one-line paragraphs. *)
Lemma upload_batches_bounded_witness :
  length (Publisher.uploads (stateOf (Publisher.uploadToAzureSearch (λ _, 0%N) (λ _, false)
            (replicate (Z.to_nat 35000)
               (RawContent "p" "chocolate" "https://www.madewithnestle.ca/")))))
  = 2.
Proof.
  apply (upload_batches_bounded (λ _, 0%N) (λ _, false)
           (replicate (Z.to_nat 35000)
              (RawContent "p" "chocolate" "https://www.madewithnestle.ca/"))).
  reflexivity.
Defined.

(** ** The graph store *)

Section EdgeMerge.
Import Graph.
Implicit Types (es cs : list Edge) (e : Edge) (g : Store).

Lemma mergeEdge_nodes g e : nodes (mergeEdge g e) = nodes g.
Proof. unfold mergeEdge. by case_decide. Qed.

Lemma mergeEdge_edges g e : edges (mergeEdge g e) = addEdge (edges g) e.
Proof. unfold mergeEdge, addEdge. by case_decide. Qed.

Lemma foldl_mergeEdge_nodes cs g : nodes (foldl mergeEdge g cs) = nodes g.
Proof.
  revert g. induction cs as [|c cs IH]; intros g; simpl; [done|].
  by rewrite IH, mergeEdge_nodes.
Qed.

Lemma foldl_mergeEdge_edges cs g :
  edges (foldl mergeEdge g cs) = foldl addEdge (edges g) cs.
Proof.
  revert g. induction cs as [|c cs IH]; intros g; simpl; [done|].
  by rewrite IH, mergeEdge_edges.
Qed.

Lemma addEdge_elem es e e' : e' ∈ addEdge es e ↔ e' ∈ es ∨ e' = e.
Proof.
  unfold addEdge. case_decide.
  - split; [by left|]. by intros [?| ->].
  - rewrite elem_of_app, list_elem_of_singleton. done.
Qed.

Lemma foldl_addEdge_elem cs es e : e ∈ foldl addEdge es cs ↔ e ∈ es ∨ e ∈ cs.
Proof.
  revert es. induction cs as [|c cs IH]; intros es; simpl.
  - split; [by left|]. by intros [?|?%elem_of_nil].
  - rewrite IH, addEdge_elem, elem_of_cons. tauto.
Qed.

(** Merging relationships that all exist changes nothing. *)
Lemma foldl_addEdge_present cs es : (∀ c, c ∈ cs → c ∈ es) → foldl addEdge es cs = es.
Proof.
  induction cs as [|c cs IH]; intros Hcs; simpl; [done|].
  unfold addEdge at 2. rewrite decide_True by (apply Hcs; left).
  apply IH. intros c' ?. apply Hcs. by right.
Qed.

Lemma addEdge_NoDup es e : NoDup es → NoDup (addEdge es e).
Proof.
  unfold addEdge. case_decide; [done|]. intros Hnd.
  apply NoDup_app. split_and!; [done| |apply NoDup_singleton].
  intros x Hx ->%list_elem_of_singleton. done.
Qed.

Lemma foldl_addEdge_NoDup cs es : NoDup es → NoDup (foldl addEdge es cs).
Proof.
  revert es. induction cs as [|c cs IH]; intros es Hnd; simpl; [done|].
  by apply IH, addEdge_NoDup.
Qed.

End EdgeMerge.

Section NodeMerge.
Import Graph.
Implicit Types (items batch : list NormalizedContent) (g : Store) (m : gmap string Node).

Lemma mergeNodes_nodes items g : nodes (mergeNodes items g) = foldl upsert (nodes g) items.
Proof.
  unfold mergeNodes. revert g.
  induction items as [|x items IH]; intros g; simpl; [done|]. by rewrite IH.
Qed.

Lemma mergeNodes_edges items g : edges (mergeNodes items g) = edges g.
Proof.
  unfold mergeNodes. revert g.
  induction items as [|x items IH]; intros g; simpl; [done|]. by rewrite IH.
Qed.

Lemma lookup_foldl_upsert items m k :
  foldl upsert m items !! k = from_option Some (m !! k) (lastWrite items k).
Proof.
  revert m. induction items as [|x items IH]; intros m; simpl; [done|].
  rewrite IH. destruct (lastWrite items k); simpl; [done|].
  unfold upsert. case_decide as Hk.
  - subst. by rewrite lookup_insert_eq.
  - by rewrite lookup_insert_ne.
Qed.

(** Writing the same items again leaves the node map as it is. *)
Lemma foldl_upsert_twice items m :
  foldl upsert (foldl upsert m items) items = foldl upsert m items.
Proof.
  apply map_eq. intros k. rewrite !lookup_foldl_upsert.
  by destruct (lastWrite items k).
Qed.

End NodeMerge.

Section RelationMerge.
Import Graph.
Implicit Types (batch : list NormalizedContent) (g : Store).

Lemma relatedEdges_nodes g g' item :
  nodes g = nodes g' → relatedEdges g item = relatedEdges g' item.
Proof. unfold relatedEdges. by intros ->. Qed.

Lemma relateItem_nodes g item : nodes (relateItem g item) = nodes g.
Proof. apply foldl_mergeEdge_nodes. Qed.

Lemma relateItem_edges g item :
  edges (relateItem g item) = foldl addEdge (edges g) (relatedEdges g item).
Proof. apply foldl_mergeEdge_edges. Qed.

Lemma mergeRelated_nodes batch g : nodes (mergeRelated batch g) = nodes g.
Proof.
  unfold mergeRelated. revert g.
  induction batch as [|x batch IH]; intros g; simpl; [done|].
  by rewrite IH, relateItem_nodes.
Qed.

(** One batch merges the relationships its headings match, in order. *)
Lemma mergeRelated_edges batch g :
  edges (mergeRelated batch g) = foldl addEdge (edges g) (batch ≫= relatedEdges g).
Proof.
  unfold mergeRelated. revert g.
  induction batch as [|x batch IH]; intros g; simpl; [done|].
  rewrite IH, relateItem_edges, foldl_app.
  f_equal. apply list_bind_ext; [|done].
  intros item. apply relatedEdges_nodes, relateItem_nodes.
Qed.

(** A relationship the statement merges joins two nodes with equal url. *)
Lemma relatedEdges_same_url g item e :
  e ∈ relatedEdges g item → connectsSameUrl g e.
Proof.
  unfold relatedEdges. destruct (nodes g !! nc_id item) as [n|] eqn:Hn.
  - intros ([oid other] & -> & [Hrel Hin]%list_elem_of_filter)%list_elem_of_fmap.
    apply elem_of_map_to_list in Hin. simpl in *.
    unfold related in Hrel. rewrite !andb_true_iff in Hrel.
    destruct Hrel as [[[[Hurl%bool_decide_eq_true _] _] _] _].
    exists n, other. done.
  - by intros ?%elem_of_nil.
Qed.

End RelationMerge.

Section Sessions.
Import Graph.
Implicit Types (plan : list Event) (s : Session) (fails : nat → bool).

Lemma runPlanned_app fails plan1 plan2 s :
  runPlanned fails (plan1 ++ plan2) s
  = match runPlanned fails plan1 s with
    | Normal s' => runPlanned fails plan2 s'
    | Thrown s' => Thrown s'
    end.
Proof.
  revert s. induction plan1 as [|ev plan1 IH]; intros s; simpl; [done|].
  destruct (sessionRun fails ev _ s); [apply IH|done].
Qed.

Lemma nodeLoop_planned fails (batches : list (list NormalizedContent)) s :
  forEachBatch (λ batch, sessionRun fails (RunNodes batch) (mergeNodes batch)) batches s
  = runPlanned fails (RunNodes <$> batches) s.
Proof.
  revert s. induction batches as [|b batches IH]; intros s; simpl; [done|].
  unfold sessionRun. destruct (fails (calls s)); [done|]. apply IH.
Qed.

Lemma relLoop_planned fails (batches : list (list NormalizedContent)) s :
  forEachBatch (λ batch, sessionRun fails (RunRelated batch) (mergeRelated batch)) batches s
  = runPlanned fails (RunRelated <$> batches) s.
Proof.
  revert s. induction batches as [|b batches IH]; intros s; simpl; [done|].
  unfold sessionRun. destruct (fails (calls s)); [done|]. apply IH.
Qed.

(** [ingestContent] runs its planned statements in order inside one [try]. *)
Lemma ingestContent_planned fails g content :
  ingestContent fails g content
  = logEvent SessionClose
      match runPlanned fails (plannedBatches content)
              (logEvent (LogProcessing (length (Normalizer.validContent content)))
                 (mkSession g 0 [])) with
      | Normal s => s
      | Thrown s => logEvent LogError s
      end.
Proof.
  unfold ingestContent, plannedBatches, batchesOf.
  rewrite !forBatches_batches, nodeLoop_planned, runPlanned_app.
  destruct (runPlanned fails (RunNodes <$> _) _); [|done].
  by rewrite forBatches_batches, relLoop_planned.
Qed.

(** When none of the statements rejects, all of them run. *)
Lemma runPlanned_all fails plan s :
  (∀ j, j < length plan → fails (calls s + j) = false) →
  runPlanned fails plan s
  = Normal (mkSession (foldl applyBatch (store s) plan) (calls s + length plan)
              (events s ++ plan)).
Proof.
  revert s. induction plan as [|ev plan IH]; intros s Hok; simpl.
  - rewrite Nat.add_0_r, app_nil_r. by destruct s.
  - unfold sessionRun. rewrite <- (Nat.add_0_r (calls s)) at 1.
    rewrite Hok by (simpl; lia). rewrite IH; simpl.
    + f_equal. f_equal; [lia|]. by rewrite <- app_assoc.
    + intros j Hj. specialize (Hok (S j)). rewrite Nat.add_succ_r in Hok.
      apply Hok. simpl. lia.
Qed.

(** At the first rejection the run stops: the statements before it are
    applied, the rejected one is attempted, and no later one is. *)
Lemma runPlanned_first_failure fails plan s k :
  k < length plan → fails (calls s + k) = true →
  (∀ j, j < k → fails (calls s + j) = false) →
  runPlanned fails plan s
  = Thrown (mkSession (foldl applyBatch (store s) (take k plan)) (calls s + S k)
              (events s ++ take (S k) plan)).
Proof.
  revert s k. induction plan as [|ev plan IH]; intros s k Hk Hfail Hok; simpl in *; [lia|].
  unfold sessionRun. destruct k as [|k].
  - rewrite Nat.add_0_r in Hfail. rewrite Hfail. simpl.
    do 2 f_equal. lia.
  - rewrite <- (Nat.add_0_r (calls s)) at 1. rewrite Hok by lia.
    rewrite (IH _ k); simpl.
    + do 2 f_equal; [lia|]. by rewrite <- app_assoc.
    + lia.
    + by rewrite Nat.add_succ_r in Hfail.
    + intros j Hj. specialize (Hok (S j)). rewrite Nat.add_succ_r in Hok.
      apply Hok. lia.
Qed.

(** In every case the store ends as some prefix of the plan leaves it. *)
Lemma runPlanned_store_prefix fails plan s :
  ∃ k, store (stateOf (runPlanned fails plan s))
       = foldl applyBatch (store s) (take k plan).
Proof.
  revert s. induction plan as [|ev plan IH]; intros s; simpl.
  - by exists 0.
  - unfold sessionRun. destruct (fails (calls s)).
    + by exists 0.
    + destruct (IH (mkSession (applyBatch (store s) ev) (S (calls s)) (events s ++ [ev])))
        as [k Hk].
      exists (S k). exact Hk.
Qed.

Lemma ingestContent_store_prefix fails g content :
  ∃ k, store (ingestContent fails g content)
       = foldl applyBatch g (take k (plannedBatches content)).
Proof.
  rewrite ingestContent_planned.
  destruct (runPlanned_store_prefix fails (plannedBatches content)
              (logEvent (LogProcessing (length (Normalizer.validContent content)))
                 (mkSession g 0 []))) as [k Hk].
  exists k. simpl in Hk. rewrite <- Hk. by destruct (runPlanned _ _ _).
Qed.

End Sessions.

Section Ingestion.
Import Graph.
Implicit Types (g : Store) (content : list RawItem) (fails : nat → bool).

Lemma store_eq g g' : nodes g = nodes g' → edges g = edges g' → g = g'.
Proof. destruct g, g'; simpl. by intros -> ->. Qed.

Lemma mergeNodes_app (b1 b2 : list NormalizedContent) g :
  mergeNodes (b1 ++ b2) g = mergeNodes b2 (mergeNodes b1 g).
Proof. unfold mergeNodes. apply foldl_app. Qed.

Lemma mergeRelated_app (b1 b2 : list NormalizedContent) g :
  mergeRelated (b1 ++ b2) g = mergeRelated b2 (mergeRelated b1 g).
Proof. unfold mergeRelated. apply foldl_app. Qed.

Lemma applyBatch_nodes (batches : list (list NormalizedContent)) g :
  foldl applyBatch g (RunNodes <$> batches) = mergeNodes (concat batches) g.
Proof.
  revert g. induction batches as [|b batches IH]; intros g; simpl; [done|].
  by rewrite IH, mergeNodes_app.
Qed.

Lemma applyBatch_related (batches : list (list NormalizedContent)) g :
  foldl applyBatch g (RunRelated <$> batches) = mergeRelated (concat batches) g.
Proof.
  revert g. induction batches as [|b batches IH]; intros g; simpl; [done|].
  by rewrite IH, mergeRelated_app.
Qed.

Lemma planned_are_attempts content :
  Forall (λ ev, isAttempt ev = true ∧ ev ≠ LogError) (plannedBatches content).
Proof.
  unfold plannedBatches. apply Forall_app. split; apply Forall_fmap, Forall_true; done.
Qed.

Lemma attempts_of_planned (plan : list Event) :
  Forall (λ ev, isAttempt ev = true ∧ ev ≠ LogError) plan →
  attempts plan = plan ∧ errorsLogged plan = 0.
Proof.
  unfold attempts, errorsLogged.
  induction 1 as [|ev plan [Hat Hne] _ [IH1 IH2]]; [done|].
  rewrite !filter_cons. rewrite decide_True by done. rewrite decide_False by done.
  rewrite IH1. done.
Qed.

(** With no rejection, the store ends as both phases leave it. *)
Lemma ingestContent_store content g :
  store (ingestContent noFailure g content)
  = mergeRelated (Normalizer.headingContent (Normalizer.validContent content))
      (mergeNodes (Normalizer.validContent content) g).
Proof.
  rewrite ingestContent_planned, runPlanned_all by done. simpl.
  unfold plannedBatches. rewrite foldl_app, applyBatch_nodes, applyBatch_related.
  rewrite !batchesOf_concat; [done| |]; unfold relBatchSize, nodeBatchSize; lia.
Qed.

(** C2 (as the code has it). The statements of one [ingestContent] run
    inside a single [try]: when the [k]-th planned batch is the first whose
    write rejects, the batches before it are written, the rejected one is
    the last attempted, the error is logged once, the session is closed, and
    no later batch (node or relationship) is attempted. *)
Theorem ingest_stops_at_first_failure fails g content (k : nat) :
  k < length (plannedBatches content) →
  fails k = true →
  (∀ j, j < k → fails j = false) →
  let s := ingestContent fails g content in
  events s = LogProcessing (length (Normalizer.validContent content))
             :: take (S k) (plannedBatches content) ++ [LogError; SessionClose]
  ∧ attempts (events s) = take (S k) (plannedBatches content)
  ∧ errorsLogged (events s) = 1
  ∧ store s = foldl applyBatch g (take k (plannedBatches content)).
Proof.
  intros Hk Hfail Hok s. subst s.
  rewrite ingestContent_planned.
  rewrite (runPlanned_first_failure fails _ _ k) by done. simpl.
  assert (Forall (λ ev, isAttempt ev = true ∧ ev ≠ LogError)
            (take (S k) (plannedBatches content))) as Hpre.
  { apply Forall_take, planned_are_attempts. }
  apply attempts_of_planned in Hpre as [Hat Herr].
  assert (∀ l1 l2 : list Event, (l1 ++ l2) ++ [SessionClose] = l1 ++ l2 ++ [SessionClose])
    as Hassoc by (intros; by rewrite <- app_assoc).
  split_and!.
  - by rewrite <- !app_assoc.
  - unfold attempts in *. rewrite filter_cons, decide_False by done.
    rewrite !filter_app, Hat. simpl. by rewrite !app_nil_r.
  - unfold errorsLogged in *. rewrite filter_cons, decide_False by done.
    rewrite !filter_app, !length_app, Herr. reflexivity.
  - done.
Qed.

(** 101 paragraphs make two node batches; the first write rejects. *)
Lemma ingest_stops_at_first_failure_witness :
  let content := replicate 101 (RawContent "p" "Fun Facts about cocoa" "https://www.madewithnestle.ca/") in
  attempts (events (ingestContent (λ k, k =? 0) empty content))
  = take 1 (plannedBatches content).
Proof.
  intros content.
  apply (ingest_stops_at_first_failure (λ k, k =? 0) empty content 0).
  - vm_compute. lia.
  - reflexivity.
  - intros j Hj. lia.
Defined.

(** C2 (as stated) fails: with 101 valid items there are two node batches;
    when the write of the first rejects, the second is never attempted and
    the store stays empty. *)
Lemma batch_after_failure_not_attempted :
  let item := RawContent "p" "Fun Facts about cocoa" "https://www.madewithnestle.ca/" in
  let content := replicate 101 item in
  let s := ingestContent (λ k, k =? 0) empty content in
  plannedBatches content
    = [RunNodes (replicate 100 (Normalizer.withId item)); RunNodes [Normalizer.withId item]]
  ∧ attempts (events s) = [RunNodes (replicate 100 (Normalizer.withId item))]
  ∧ ¬ (RunNodes [Normalizer.withId item] ∈ events s)
  ∧ store s = empty.
Proof.
  intros item content s. split_and!.
  - vm_compute. reflexivity.
  - vm_compute. reflexivity.
  - refine (proj1 (bool_decide_eq_false _) _). vm_compute. reflexivity.
  - vm_compute. reflexivity.
Qed.

Example ingest_sample :
  store (ingestContent noFailure empty
           [RawHtml "https://x.ca/a" "<html></html>";
            RawContent "h2" "Fun Facts about cocoa" "https://x.ca/a";
            RawContent "p" "Fun Facts about cocoa: it grows on trees" "https://x.ca/a";
            RawContent "p" "Fun Facts about cocoa: it grows on trees" "https://x.ca/b"])
  = mkStore
      (<["https://x.ca/a-Fun_Facts_about_cocoa" :=
           mkNode "Fun Facts about cocoa" "h2" "https://x.ca/a"]>
       (<["https://x.ca/a-Fun_Facts_about_cocoa__it_grows_on_trees" :=
            mkNode "Fun Facts about cocoa: it grows on trees" "p" "https://x.ca/a"]>
        (<["https://x.ca/b-Fun_Facts_about_cocoa__it_grows_on_trees" :=
             mkNode "Fun Facts about cocoa: it grows on trees" "p" "https://x.ca/b"]> ∅)))
      [mkEdge "https://x.ca/a-Fun_Facts_about_cocoa"
              "https://x.ca/a-Fun_Facts_about_cocoa__it_grows_on_trees" (Some "section")].
Proof. vm_compute. reflexivity. Qed.

(** The relationships of one run, with no rejection: those of the store
    before, then the matches of the headings not yet present. *)
Lemma ingestContent_edges content g :
  let g1 := mergeNodes (Normalizer.validContent content) g in
  edges (store (ingestContent noFailure g content))
  = foldl addEdge (edges g)
      (Normalizer.headingContent (Normalizer.validContent content) ≫= relatedEdges g1).
Proof.
  intros g1. rewrite ingestContent_store, mergeRelated_edges.
  subst g1. by rewrite mergeNodes_edges.
Qed.

Lemma ingestContent_nodes content g :
  nodes (store (ingestContent noFailure g content))
  = foldl upsert (nodes g) (Normalizer.validContent content).
Proof. by rewrite ingestContent_store, mergeRelated_nodes, mergeNodes_nodes. Qed.

(** C6. Ingesting the same content a second time, with no write rejected,
    leaves the store exactly as the first ingestion left it: the same nodes
    (so the same node count) and the same relationships; and a store whose
    relationships are pairwise distinct keeps them so. *)
Theorem ingest_twice_is_ingest_once g content :
  let once := store (ingestContent noFailure g content) in
  let twice := store (ingestContent noFailure once content) in
  twice = once
  ∧ size (nodes twice) = size (nodes once)
  ∧ (NoDup (edges g) → NoDup (edges once) ∧ NoDup (edges twice)).
Proof.
  intros once twice.
  assert (Hnodes : nodes twice = nodes once).
  { subst twice once. rewrite !ingestContent_nodes. apply foldl_upsert_twice. }
  assert (Hmid : mergeNodes (Normalizer.validContent content) once
                 = once).
  { apply store_eq.
    - rewrite mergeNodes_nodes. subst once.
      rewrite ingestContent_nodes. apply foldl_upsert_twice.
    - apply mergeNodes_edges. }
  assert (Hedges : edges twice = edges once).
  { subst twice. rewrite ingestContent_edges. cbv zeta. rewrite Hmid.
    apply foldl_addEdge_present. intros c Hc.
    subst once. rewrite ingestContent_edges. cbv zeta.
    apply foldl_addEdge_elem. right.
    erewrite list_bind_ext; [exact Hc| |done].
    intros item. apply relatedEdges_nodes.
    rewrite ingestContent_store, mergeRelated_nodes. done. }
  assert (Heq : twice = once) by by apply store_eq.
  split_and!; [done|by rewrite Heq|].
  intros Hnd. rewrite Heq. split; subst once;
    rewrite ingestContent_edges; by apply foldl_addEdge_NoDup.
Qed.

Lemma ingest_twice_is_ingest_once_witness :
  let content := [RawContent "h2" "Fun Facts about cocoa" "https://x.ca/a";
                  RawContent "p" "Fun Facts about cocoa: it grows on trees" "https://x.ca/a"] in
  NoDup (edges (store (ingestContent noFailure empty content)))
  ∧ NoDup (edges (store (ingestContent noFailure
                           (store (ingestContent noFailure empty content)) content))).
Proof.
  intros content.
  apply (ingest_twice_is_ingest_once empty content).
  simpl. apply NoDup_nil_2.
Defined.

(** *** Keys determine urls *)

Lemma replaceNonAlnum_dashFree s : dashFree (Js.replaceNonAlnum s).
Proof.
  induction s as [|c s IH]; simpl; [done|]. split; [|done].
  destruct (Js.is_alnum c) eqn:Hc; [|done].
  intros ->. vm_compute in Hc. done.
Qed.

Lemma append_nil (s : string) : "" +:+ s = s.
Proof. reflexivity. Qed.

Lemma append_cons (c : N) (s t : string) : String c s +:+ t = String c (s +:+ t).
Proof. reflexivity. Qed.

Lemma append_inj (s t1 t2 : string) : s +:+ t1 = s +:+ t2 → t1 = t2.
Proof.
  induction s as [|c s IH]; rewrite ?append_nil, ?append_cons; [done|].
  intros [= Heq]. by apply IH.
Qed.

Lemma dashFree_no_dash (u r : string) : ¬ dashFree (u +:+ String Js.dash r).
Proof.
  induction u as [|d u IH]; rewrite ?append_nil, ?append_cons; simpl.
  - by intros [? _].
  - intros [_ ?]. auto.
Qed.

(** A key splits at its last dash in one way only. *)
Lemma key_split_unique (u1 u2 r1 r2 : string) :
  dashFree r1 → dashFree r2 →
  u1 +:+ "-" +:+ r1 = u2 +:+ "-" +:+ r2 → u1 = u2.
Proof.
  intros H1 H2. revert u2.
  induction u1 as [|c u1 IH]; intros [|c2 u2];
    repeat (rewrite append_nil || rewrite append_cons); intros Heq.
  - done.
  - injection Heq as _ ->. by apply dashFree_no_dash in H1.
  - injection Heq as _ <-. by apply dashFree_no_dash in H2.
  - injection Heq as -> Heq. f_equal. apply IH.
    by repeat (rewrite append_nil || rewrite append_cons).
Qed.

Lemma validContent_id content x :
  x ∈ Normalizer.validContent content →
  nc_id x = Normalizer.contentId (nc_url x) (nc_text x).
Proof.
  unfold Normalizer.validContent.
  intros (item & -> & [Hvalid _]%list_elem_of_filter)%list_elem_of_fmap.
  destruct item; [done|reflexivity].
Qed.

(** *** Relationships stay within one url *)

Lemma connectsSameUrl_nodes g g' e :
  nodes g = nodes g' → connectsSameUrl g e → connectsSameUrl g' e.
Proof. unfold connectsSameUrl. by intros ->. Qed.

(** Overwriting a node leaves the url of every keyed node as it was. *)
Lemma upsert_keeps_url (m : gmap string Node) x k n :
  nc_id x = Normalizer.contentId (nc_url x) (nc_text x) →
  keyCarriesUrl k n → m !! k = Some n →
  ∃ n', upsert m x !! k = Some n' ∧ n_url n' = n_url n.
Proof.
  intros Hid (rest & Hk & Hrest) Hlook. unfold upsert.
  destruct (decide (nc_id x = k)) as [Heq|Hne].
  - exists (nodeOf x). rewrite Heq, lookup_insert_eq. split; [done|]. simpl.
    rewrite Hid in Heq. unfold Normalizer.contentId in Heq. rewrite Hk in Heq.
    eapply key_split_unique; [| |exact Heq]; [apply replaceNonAlnum_dashFree|done].
  - exists n. by rewrite lookup_insert_ne.
Qed.

Lemma mergeNode_wellKeyed g x :
  nc_id x = Normalizer.contentId (nc_url x) (nc_text x) →
  wellKeyed g → wellKeyed (mergeNode g x).
Proof.
  intros Hid [Hkeys Hedges]. split; simpl.
  - intros id n. destruct (decide (nc_id x = id)) as [<-|Hne].
    + rewrite lookup_insert_eq. intros [= <-]. simpl.
      exists (Js.replaceNonAlnum (Js.substring0 50 (nc_text x))).
      split; [exact Hid|apply replaceNonAlnum_dashFree].
    + rewrite lookup_insert_ne by done. apply Hkeys.
  - intros e He. destruct (Hedges e He) as (n & m & Hn & Hm & Hurl).
    destruct (upsert_keeps_url (nodes g) x _ n Hid (Hkeys _ _ Hn) Hn) as (n' & Hn' & Hun).
    destruct (upsert_keeps_url (nodes g) x _ m Hid (Hkeys _ _ Hm) Hm) as (m' & Hm' & Hum).
    exists n', m'. split_and!; [exact Hn'|exact Hm'|congruence].
Qed.

Lemma mergeNodes_wellKeyed (items : list NormalizedContent) g :
  Forall (λ x, nc_id x = Normalizer.contentId (nc_url x) (nc_text x)) items →
  wellKeyed g → wellKeyed (mergeNodes items g).
Proof.
  unfold mergeNodes. intros Hitems. revert g.
  induction Hitems as [|x items Hx _ IH]; intros g Hg; simpl; [done|].
  by apply IH, mergeNode_wellKeyed.
Qed.

(** A relationship of the store after a relationship batch was there
    before or joins two nodes with the same url. *)
Lemma mergeRelated_new_edges (batch : list NormalizedContent) g e :
  e ∈ edges (mergeRelated batch g) → e ∈ edges g ∨ connectsSameUrl g e.
Proof.
  rewrite mergeRelated_edges, foldl_addEdge_elem.
  intros [?|(item & He & _)%list_elem_of_bind]; [by left|right].
  by eapply relatedEdges_same_url.
Qed.

Lemma mergeRelated_wellKeyed (batch : list NormalizedContent) g :
  wellKeyed g → wellKeyed (mergeRelated batch g).
Proof.
  intros [Hkeys Hedges]. split.
  - rewrite mergeRelated_nodes. done.
  - intros e He. apply (connectsSameUrl_nodes g).
    + by rewrite mergeRelated_nodes.
    + apply mergeRelated_new_edges in He as [He|He]; auto.
Qed.

(** Whatever rejects, the store ends as some of the node items and then
    some of the headings leave it. *)
Lemma ingestContent_store_shape fails g content :
  ∃ items heads,
    store (ingestContent fails g content) = mergeRelated heads (mergeNodes items g)
    ∧ Forall (λ x, x ∈ Normalizer.validContent content) items.
Proof.
  destruct (ingestContent_store_prefix fails g content) as [k ->].
  unfold plannedBatches. rewrite take_app, foldl_app, <- !fmap_take.
  rewrite applyBatch_nodes, applyBatch_related.
  eexists _, _. split; [done|].
  apply Forall_forall. intros x (l & Hx & Hl)%elem_of_concat.
  rewrite <- (batchesOf_concat nodeBatchSize (Normalizer.validContent content))
    by (unfold nodeBatchSize; lia).
  apply elem_of_concat. exists l. split; [done|].
  eapply subseteq_take, Hl.
Qed.

(** C1. Every relationship that one run of [ingestContent] adds to the
    store, whichever writes reject, joins two nodes that carry the same url;
    and in every store built from the empty one by runs of [ingestContent],
    every relationship joins two nodes with the same url, so none joins
    nodes of different urls. *)
Theorem related_edges_join_same_url :
  (∀ fails g content e,
     e ∈ edges (store (ingestContent fails g content)) → e ∉ edges g →
     connectsSameUrl (store (ingestContent fails g content)) e)
  ∧ (∀ g e, Built g → e ∈ edges g → connectsSameUrl g e).
Proof.
  split.
  - intros fails g content e He Hnew.
    destruct (ingestContent_store_shape fails g content) as (items & heads & Hs & _).
    rewrite Hs in *.
    apply mergeRelated_new_edges in He as [He|He].
    + by rewrite mergeNodes_edges in He.
    + eapply connectsSameUrl_nodes; [|exact He]. by rewrite mergeRelated_nodes.
  - assert (∀ g, Built g → wellKeyed g) as Hinv.
    { induction 1 as [|fails g content _ IH].
      - split; simpl; [intros id n Hid; by rewrite lookup_empty in Hid
                      |by intros ? ?%elem_of_nil].
      - destruct (ingestContent_store_shape fails g content)
          as (items & heads & -> & Hitems).
        apply mergeRelated_wellKeyed, mergeNodes_wellKeyed; [|done].
        eapply Forall_impl; [exact Hitems|]. intros x. apply validContent_id. }
    intros g e Hg. by apply Hinv.
Qed.

(** One page with a heading and a paragraph that contains it, and the same
    paragraph on another page; then a second run whose relationship
    statement rejects. *)
Lemma related_edges_join_same_url_witness :
  let content := [RawContent "h2" "Fun Facts about cocoa" "https://x.ca/a";
                  RawContent "p" "Fun Facts about cocoa: it grows on trees" "https://x.ca/a";
                  RawContent "p" "Fun Facts about cocoa: it grows on trees" "https://x.ca/b"] in
  let e := mkEdge "https://x.ca/a-Fun_Facts_about_cocoa"
             "https://x.ca/a-Fun_Facts_about_cocoa__it_grows_on_trees" (Some "section") in
  let g1 := store (ingestContent noFailure empty content) in
  let g2 := store (ingestContent (λ k, k =? 1) g1
                     [RawContent "h3" "it grows on trees" "https://x.ca/a"]) in
  connectsSameUrl g1 e ∧ connectsSameUrl g2 e.
Proof.
  intros content e g1 g2. split.
  - apply (proj1 related_edges_join_same_url noFailure empty content).
    + vm_compute. left.
    + simpl. apply not_elem_of_nil.
  - apply (proj2 related_edges_join_same_url g2 e).
    + apply Built_ingest, Built_ingest, Built_empty.
    + vm_compute. left.
Defined.

End Ingestion.

(** ** Graph queries *)

(** Mapping a sorted list whose elements satisfy [P] by a function that
    keeps the order on such elements. *)
Lemma StronglySorted_fmap_on {A B} (P : A → Prop) (f : A → B)
    (R1 : relation A) (R2 : relation B) (l : list A) :
  (∀ x y, P x → P y → R1 x y → R2 (f x) (f y)) →
  Forall P l → StronglySorted R1 l → StronglySorted R2 (f <$> l).
Proof.
  intros Hf HP Hs. induction Hs as [|x l Hs IH Hx]; csimpl; [constructor|].
  apply Forall_cons in HP as [HPx HPl]. constructor; [by apply IH|].
  rewrite Forall_fmap. apply Forall_forall. intros y Hy. simpl.
  rewrite Forall_forall in Hx, HPl. auto.
Qed.

Section Queries.
Import Retrieval.
Implicit Types (apoc : Apoc) (g : Graph.Store) (r : Row) (x : Q).

Local Instance bySimilarityDesc_total : Total bySimilarityDesc.
Proof.
  intros r1 r2. unfold bySimilarityDesc. rewrite !Qle_bool_iff.
  destruct (Qlt_le_dec (row_similarity r1) (row_similarity r2)) as [?%Qlt_le_weak|?]; auto.
Qed.

Local Instance bySimilarityDesc_trans : Transitive bySimilarityDesc.
Proof.
  intros r1 r2 r3. unfold bySimilarityDesc. rewrite !Qle_bool_iff.
  intros ??. by eapply Qle_trans.
Qed.

Lemma aboveThreshold_spec r : aboveThreshold r = true ↔ (6 # 10 < row_similarity r)%Q.
Proof.
  unfold aboveThreshold. rewrite negb_true_iff. split.
  - intros Hb. apply Qnot_le_lt. intros Hle%Qle_bool_iff. congruence.
  - intros Hlt. destruct (Qle_bool _ _) eqn:Hb; [|done].
    apply Qle_bool_iff in Hb. by apply Qlt_not_le in Hlt.
Qed.

(** The rows the statement returns: at most 10, all above the threshold,
    in non-increasing order of similarity. *)
Lemma relatedRows_shape apoc g query :
  length (relatedRows apoc g query) ≤ 10
  ∧ Forall (λ r, (6 # 10 < row_similarity r)%Q) (relatedRows apoc g query)
  ∧ StronglySorted (λ r1 r2, (row_similarity r2 <= row_similarity r1)%Q)
      (relatedRows apoc g query).
Proof.
  unfold relatedRows.
  set (rows := filter _ (matchRows apoc g query)).
  split_and!.
  - rewrite length_take. lia.
  - apply Forall_take. rewrite merge_sort_Permutation. subst rows.
    apply Forall_forall. intros r [Hr _]%list_elem_of_filter.
    by apply aboveThreshold_spec.
  - pose proof (StronglySorted_merge_sort bySimilarityDesc rows) as Hs.
    rewrite <- (take_drop 10 (merge_sort bySimilarityDesc rows)) in Hs.
    apply StronglySorted_app_1_l in Hs.
    rewrite <- (list_fmap_id (take 10 _)).
    eapply (StronglySorted_fmap_on (λ _, True)); [|by apply Forall_true|exact Hs].
    intros r1 r2 _ _. unfold bySimilarityDesc. by rewrite Qle_bool_iff.
Qed.

(** Rounding a similarity in (0.6, 1] gives between 60 and 100 hundredths. *)
Lemma toFixed2_bounds x :
  (6 # 10 < x)%Q → (x <= 1)%Q →
  negative (toFixed2 x) = false ∧ (60 ≤ hundredths (toFixed2 x) ≤ 100)%Z.
Proof.
  intros Hlo Hhi. unfold toFixed2.
  destruct (Qlt_le_dec x 0) as [Hneg|_].
  { exfalso. apply (Qlt_irrefl x). eapply Qlt_trans; [exact Hneg|].
    eapply Qlt_trans; [|exact Hlo]. reflexivity. }
  cbn [negative hundredths]. split; [done|]. split.
  - change 60%Z with (Qfloor (inject_Z 60)). apply Qfloor_resp_le.
    apply Qlt_le_weak.
    apply Qlt_le_trans with ((6 # 10) * 100 + (1 # 2))%Q; [reflexivity|].
    apply Qplus_le_l, Qmult_le_compat_r; [by apply Qlt_le_weak|done].
  - change 100%Z with (Qfloor (1 * 100 + (1 # 2))%Q). apply Qfloor_resp_le.
    apply Qplus_le_l, Qmult_le_compat_r; done.
Qed.

(** Rounding keeps the order. *)
Lemma toFixed2_mono x y :
  (0 <= x)%Q → (x <= y)%Q → (hundredths (toFixed2 x) ≤ hundredths (toFixed2 y))%Z.
Proof.
  intros Hx Hxy. unfold toFixed2.
  destruct (Qlt_le_dec x 0) as [Hneg|_]; [by apply Qlt_not_le in Hneg|].
  destruct (Qlt_le_dec y 0) as [Hneg|_].
  { exfalso. apply (Qlt_not_le _ _ Hneg). by eapply Qle_trans. }
  cbn [hundredths]. apply Qfloor_resp_le, Qplus_le_l, Qmult_le_compat_r; done.
Qed.

Lemma relatedRows_similarity apoc g query r :
  r ∈ relatedRows apoc g query →
  ∃ a b, row_similarity r = jaroWinklerDistance apoc a b.
Proof.
  unfold relatedRows. intros Hr%subseteq_take.
  rewrite merge_sort_Permutation in Hr.
  apply list_elem_of_filter in Hr as [_ Hr].
  unfold matchRows in Hr. apply list_elem_of_omap in Hr as (e & _ & He).
  destruct (Graph.nodes g !! Graph.e_source e) as [n|]; [|done].
  destruct (Graph.nodes g !! Graph.e_target e) as [m|]; [|done].
  simpl in He. destruct (_ || _); [|done].
  injection He as <-. simpl. eauto.
Qed.

Example toFixed2_samples :
  render (toFixed2 (7349 # 10000)) = "0.73"
  ∧ render (toFixed2 (605 # 1000)) = "0.61"
  ∧ render (toFixed2 (601 # 1000)) = "0.60"
  ∧ render (toFixed2 1) = "1.00"
  ∧ render (toFixed2 (- (1 # 1000))) = "-0.00".
Proof. vm_compute. done. Qed.




End Queries.

(** ** The chat handler *)

Section ChatHandler.
Import Chat.
Implicit Types (sv : Services) (apoc : Retrieval.Apoc) (g : Graph.Store).

Lemma chat_with_message sv apoc g message :
  message ≠ "" →
  chat sv apoc g (Some message)
  = match search sv message with
    | Rejected err => serverError sv err
    | Resolved hits =>
        let graphData := graphContribution sv apoc g message in
        match complete sv (promptOf message (searchContentOf hits) graphData) with
        | Rejected err => serverError sv err
        | Resolved answer =>
            mkResponse 200 (ChatBody answer (sourcesOf (searchContentOf hits) graphData))
        end
    end.
Proof. intros Hne. unfold chat. by destruct message. Qed.

(** C3 (as the code has it). For a non-empty question: a rejected graph
    query contributes no relation, and the request is then answered from
    the search results alone, with status 200 when the model answers; a
    rejected full-text search ends the request in the handler's [catch],
    with status 500 and the try-again-later message, before the graph is
    queried. *)
Theorem chat_source_failures sv apoc g (message : string) :
  message ≠ "" →
  (graphFails sv = true →
     graphContribution sv apoc g message = []
     ∧ ∀ hits answer,
         search sv message = Resolved hits →
         complete sv (promptOf message (searchContentOf hits) []) = Resolved answer →
         chat sv apoc g (Some message)
         = mkResponse 200 (ChatBody answer (sourcesOf (searchContentOf hits) [])))
  ∧ (∀ err, search sv message = Rejected err →
       chat sv apoc g (Some message)
       = mkResponse 500 (ErrorBody tryAgainLater (if development sv then Some err else None))).
Proof.
  intros Hne. split.
  - intros Hfail.
    assert (graphContribution sv apoc g message = []) as Hg.
    { unfold graphContribution, Retrieval.queryRelatedConcepts. by rewrite Hfail. }
    split; [done|]. intros hits answer Hs Hc.
    rewrite chat_with_message by done. rewrite Hs. cbv zeta. by rewrite Hg, Hc.
  - intros err Hs. rewrite chat_with_message by done. by rewrite Hs.
Qed.

(** A request whose graph query rejects while search and model answer,
    and one whose search rejects. *)
Lemma chat_source_failures_witness :
  let sv := mkServices
              (λ _, Resolved [mkHit "Cocoa grows on trees." "https://x.ca/a" None])
              true (λ _, Resolved "It grows on trees.") false in
  let sv' := mkServices (λ _, Rejected "search unavailable") false
               (λ _, Resolved "It grows on trees.") true in
  let apoc := Retrieval.mkApoc (λ s, s) (λ _ _, 1%Q) in
  chat sv apoc Graph.empty (Some "cocoa")
  = mkResponse 200
      (ChatBody "It grows on trees."
         [mkSourceRef "Cocoa grows on trees...." "https://x.ca/a"])
  ∧ chat sv' apoc Graph.empty (Some "cocoa")
    = mkResponse 500 (ErrorBody tryAgainLater (Some "search unavailable")).
Proof.
  intros sv sv' apoc. split.
  - apply (proj2 (proj1 (chat_source_failures sv apoc Graph.empty "cocoa"
                           ltac:(discriminate)) eq_refl)
             [mkHit "Cocoa grows on trees." "https://x.ca/a" None] "It grows on trees.").
    + reflexivity.
    + reflexivity.
  - apply (proj2 (chat_source_failures sv' apoc Graph.empty "cocoa" ltac:(discriminate))
             "search unavailable").
    reflexivity.
Defined.

(** C3 (as stated) fails for the full-text search: when the search rejects,
    the whole request fails with status 500, although the graph holds a
    matching relation and the model would answer. *)
Lemma search_failure_fails_request :
  let sv := mkServices (λ _, Rejected "search unavailable") false
              (λ _, Resolved "It grows on trees.") false in
  let apoc := Retrieval.mkApoc (λ s, s) (λ _ _, (9 # 10)%Q) in
  let g := Graph.store (Graph.ingestContent Graph.noFailure Graph.empty
             [RawContent "h2" "Fun Facts about cocoa" "https://x.ca/a";
              RawContent "p" "Fun Facts about cocoa: it grows on trees" "https://x.ca/a"]) in
  length (graphContribution sv apoc g "cocoa") = 1
  ∧ chat sv apoc g (Some "cocoa") = mkResponse 500 (ErrorBody tryAgainLater None).
Proof. split; vm_compute; reflexivity. Qed.

End ChatHandler.

(** ** The crawler *)

Section Crawl.
Import Crawler.
Implicit Types (B : Browser) (s : Crawl) (url u : string).

Example smallSite_run :
  let s := after smallSite 10 start in
  crawled s = [BASE_URL; recipeUrl]
  ∧ queue s = []
  ∧ scrapedData s
    = [RawHtml BASE_URL "<html>home</html>";
       RawContent "h1" "Made with Nestle recipes" BASE_URL;
       RawContent "image" "Nestle logo" "https://www.madewithnestle.ca/logo.png";
       RawContent "link" "Cookies" recipeUrl;
       RawContent "link" "Home" BASE_URL;
       RawContent "link" "https://www.facebook.com/nestle" "https://www.facebook.com/nestle";
       RawHtml recipeUrl "<html>cookies</html>";
       RawContent "h1" "Chocolate chip cookies" recipeUrl;
       RawContent "p" "Mix the chocolate chips into the dough." recipeUrl;
       RawContent "link" "Home" BASE_URL].
Proof. vm_compute. done. Qed.

(** What [extractPageContent] leaves alone, and what it changes. *)
Lemma extractPageContent_effect B url s :
  let out := extractPageContent B url s in
  visitedUrls out.2 = visitedUrls s
  ∧ queue out.2 = queue s
  ∧ crawled out.2 = crawled s
  ∧ page out.2 = (goto B (page s) url).2
  ∧ (if (goto B (page s) url).1
     then scrapedData out.2 = scrapedData s ++ [RawHtml url (doc_html (page out.2))]
     else scrapedData out.2 = scrapedData s ∧ out.1 = []).
Proof.
  unfold extractPageContent.
  destruct (goto B (page s) url) as [loaded doc]. simpl.
  destruct loaded; simpl; [|done].
  destruct (Js.includes url "/recipe/" && negb (waitForSelector doc)); simpl; [done|].
  destruct (evaluateContent B doc url); done.
Qed.

(** One iteration either skips the dequeued url or crawls it. *)
Lemma step_cases B s s' :
  step B s = Some s' →
  size (visitedUrls s) < MAX_PAGES
  ∧ ∃ currentUrl rest, queue s = currentUrl :: rest
    ∧ ((shouldCrawl (visitedUrls s) currentUrl = false
        ∧ visitedUrls s' = visitedUrls s ∧ crawled s' = crawled s ∧ queue s' = rest)
       ∨ (shouldCrawl (visitedUrls s) currentUrl = true
          ∧ visitedUrls s' = {[currentUrl]} ∪ visitedUrls s
          ∧ crawled s' = crawled s ++ [currentUrl])).
Proof.
  unfold step. destruct (queue s) as [|currentUrl rest] eqn:Hq; [done|].
  destruct (Nat.ltb_spec (size (visitedUrls s)) MAX_PAGES) as [Hlt|]; [|done].
  intros Hs'. split; [done|]. exists currentUrl, rest. split; [done|].
  destruct (shouldCrawl (visitedUrls s) currentUrl) eqn:Hc; simpl in Hs'.
  - right. split; [done|].
    set (s1 := mkCrawl _ _ _ _ _) in Hs'.
    pose proof (extractPageContent_effect B currentUrl s1) as (Hv & _ & Hl & _).
    destruct (extractPageContent B currentUrl s1) as [pageData s2].
    simpl in *. injection Hs' as <-. simpl. by rewrite Hv, Hl.
  - left. injection Hs' as <-. done.
Qed.

Lemma shouldCrawl_visited (visited : gset string) u :
  u ∈ visited → shouldCrawl visited u = false.
Proof.
  intros Hu. unfold shouldCrawl.
  rewrite (bool_decide_eq_true_2 _ Hu). simpl. by rewrite !andb_false_r.
Qed.

Lemma shouldCrawl_not_visited (visited : gset string) u :
  shouldCrawl visited u = true → u ∉ visited.
Proof.
  intros Hc Hu. by rewrite shouldCrawl_visited in Hc.
Qed.

(** The visited set only grows, one url at a time, and never past the cap. *)
Lemma step_visited B s s' :
  step B s = Some s' →
  visitedUrls s ⊆ visitedUrls s'
  ∧ size (visitedUrls s') ≤ S (size (visitedUrls s))
  ∧ size (visitedUrls s') ≤ MAX_PAGES.
Proof.
  intros (Hlt & cur & rest & _ & [(_ & -> & _)|(Hc & -> & _)])%step_cases.
  - split_and!; [done|lia|lia].
  - apply shouldCrawl_not_visited in Hc.
    assert ({[cur]} ## visitedUrls s) as Hdisj by (by apply disjoint_singleton_l).
    rewrite (size_union _ _ Hdisj), size_singleton.
    split_and!; [apply union_subseteq_r|lia|lia].
Qed.

Lemma after_S B n s :
  after B (S n) s = match step B s with None => s | Some s' => after B n s' end.
Proof. reflexivity. Qed.

Lemma after_visited_bound B n s :
  size (visitedUrls s) ≤ MAX_PAGES → size (visitedUrls (after B n s)) ≤ MAX_PAGES.
Proof.
  revert s. induction n as [|n IH]; intros s Hs; [done|].
  rewrite after_S. destruct (step B s) as [s'|] eqn:Hstep; [|done].
  apply IH. by apply step_visited in Hstep as (_ & _ & ?).
Qed.

Lemma after_visited_mono B n s : visitedUrls s ⊆ visitedUrls (after B n s).
Proof.
  revert s. induction n as [|n IH]; intros s; [done|].
  rewrite after_S. destruct (step B s) as [s'|] eqn:Hstep; [|done].
  apply step_visited in Hstep as (? & _). etrans; [done|apply IH].
Qed.

(** The urls crawled so far are the visited ones, each crawled once. *)
Lemma step_crawled B s s' :
  step B s = Some s' →
  NoDup (crawled s) ∧ (∀ u, u ∈ crawled s ↔ u ∈ visitedUrls s) →
  NoDup (crawled s') ∧ (∀ u, u ∈ crawled s' ↔ u ∈ visitedUrls s').
Proof.
  intros (_ & cur & rest & _ & [(_ & -> & -> & _)|(Hc & -> & ->)])%step_cases [Hnd Hiff];
    [done|].
  apply shouldCrawl_not_visited in Hc. split.
  - apply NoDup_app. split_and!; [done| |apply NoDup_singleton].
    intros u Hu ->%list_elem_of_singleton. by apply Hc, Hiff.
  - intros u. rewrite elem_of_app, list_elem_of_singleton, Hiff.
    rewrite elem_of_union, elem_of_singleton. tauto.
Qed.

Lemma after_crawled B n s :
  NoDup (crawled s) ∧ (∀ u, u ∈ crawled s ↔ u ∈ visitedUrls s) →
  NoDup (crawled (after B n s))
  ∧ (∀ u, u ∈ crawled (after B n s) ↔ u ∈ visitedUrls (after B n s)).
Proof.
  revert s. induction n as [|n IH]; intros s Hs; [done|].
  rewrite after_S. destruct (step B s) as [s'|] eqn:Hstep; [|done].
  eapply IH, step_crawled; eauto.
Qed.

(** The loop ends: each iteration shortens the queue or uses up one of the
    [MAX_PAGES] visits. *)
Lemma crawlLoop_terminates B s :
  ∃ fuel s', crawlLoop B fuel s = Some s' ∧ step B s' = None ∧ s' = after B fuel s.
Proof.
  remember (MAX_PAGES - size (visitedUrls s)) as budget eqn:Hb.
  revert s Hb. induction budget as [budget IHb] using lt_wf_ind. intros s Hb.
  remember (length (queue s)) as len eqn:Hl.
  revert s Hb Hl. induction len as [len IHl] using lt_wf_ind. intros s Hb Hl.
  destruct (step B s) as [s1|] eqn:Hstep.
  - assert (∃ fuel s', crawlLoop B fuel s1 = Some s' ∧ step B s' = None
                       ∧ s' = after B fuel s1) as (fuel & s' & Hrun & Hend & Hafter).
    { pose proof Hstep as (Hlt & cur & rest & Hq & [(_ & Hv & _ & Hq')|(Hc & Hv & _)])%step_cases.
      - apply (IHl (length (queue s1))); [|by rewrite Hv|done].
        rewrite Hl, Hq, Hq'. simpl. lia.
      - apply (IHb (MAX_PAGES - size (visitedUrls s1))); [|done].
        apply shouldCrawl_not_visited in Hc.
        assert ({[cur]} ## visitedUrls s) as Hdisj by (by apply disjoint_singleton_l).
        rewrite Hv, (size_union _ _ Hdisj), size_singleton. lia. }
    exists (S fuel), s'. simpl. by rewrite Hstep.
  - exists 0, s. simpl. by rewrite Hstep.
Qed.

(** C4. In every run the number of visited urls stays at or below
    [MAX_PAGES] = 950 at every point of the loop; with the count at the cap
    the loop takes no further url, whatever is left in the queue; and the
    loop does end, in a state within the cap. *)
Theorem visited_count_capped B :
  (∀ n, size (visitedUrls (after B n start)) ≤ MAX_PAGES)
  ∧ (∀ s, MAX_PAGES ≤ size (visitedUrls s) → step B s = None)
  ∧ (∃ fuel s, crawlLoop B fuel start = Some s
               ∧ step B s = None ∧ size (visitedUrls s) ≤ MAX_PAGES).
Proof.
  assert (size (visitedUrls start) ≤ MAX_PAGES) as H0.
  { unfold start. cbn [visitedUrls]. rewrite size_empty. lia. }
  split_and!.
  - intros n. by apply after_visited_bound.
  - intros s Hs. unfold step. destruct (queue s); [done|].
    destruct (Nat.ltb_spec (size (visitedUrls s)) MAX_PAGES); [lia|done].
  - destruct (crawlLoop_terminates B start) as (fuel & s & Hrun & Hend & ->).
    exists fuel, (after B fuel start). split_and!; [done..|].
    by apply after_visited_bound.
Qed.

(** With 950 urls visited the loop stops although the queue is not empty. *)
Lemma visited_count_capped_witness :
  step smallSite
    (mkCrawl blank
       (list_to_set ((λ k, String (N.of_nat (k `div` 32))
                             (String (N.of_nat (k `mod` 32)) "")) <$> seq 0 950))
       [] [recipeUrl] [])
  = None.
Proof.
  apply (proj1 (proj2 (visited_count_capped smallSite))).
  apply Nat.leb_le. vm_compute. reflexivity.
Defined.

(** C9. At every point of a run: the urls crawled so far are pairwise
    distinct and are exactly the visited ones, so none is processed twice;
    the visited set only grows; and for a visited url [shouldCrawl] answers
    false from then on. *)
Theorem no_url_crawled_twice B (n : nat) :
  let s := after B n start in
  NoDup (crawled s)
  ∧ (∀ u, u ∈ crawled s ↔ u ∈ visitedUrls s)
  ∧ (∀ m, visitedUrls s ⊆ visitedUrls (after B m s))
  ∧ (∀ u m, u ∈ visitedUrls s → shouldCrawl (visitedUrls (after B m s)) u = false).
Proof.
  intros s.
  destruct (after_crawled B n start) as [Hnd Hiff].
  { unfold start. cbn [crawled visitedUrls]. split; [constructor|].
    intros u. split; [by intros ?%elem_of_nil|by intros ?%elem_of_empty]. }
  split_and!; [done|done| |].
  - intros m. apply after_visited_mono.
  - intros u m Hu. apply shouldCrawl_visited. by apply (after_visited_mono B m s).
Qed.

(** The home page, once crawled, is refused for the rest of the run. *)
Lemma no_url_crawled_twice_witness :
  shouldCrawl (visitedUrls (after smallSite 3 (after smallSite 1 start))) BASE_URL = false.
Proof.
  apply (proj2 (proj2 (proj2 (no_url_crawled_twice smallSite 1))) BASE_URL 3).
  apply (bool_decide_unpack _). vm_compute. exact I.
Defined.

(** [scrapeWebsite] returns: some number of iterations is enough. *)
Lemma scrapeWebsite_returns B fails (g : Graph.Store) :
  ∃ fuel result, scrapeWebsite B fuel fails g = Some result.
Proof.
  destruct (crawlLoop_terminates B start) as (fuel & s & Hrun & _).
  exists fuel. unfold scrapeWebsite. rewrite Hrun. simpl. eauto.
Qed.

(** C8 (as the code has it). [extractPageContent] changes neither the
    visited set nor the queue (nor the list of crawled urls); it leaves the
    shared page on the document the navigation ends on; when navigation
    fails it returns the empty list and leaves [scrapedData] as it is; when
    navigation succeeds it appends one [{url, html}] record to
    [scrapedData], whatever it then returns. *)
Theorem extractPageContent_frame B url s :
  let out := extractPageContent B url s in
  visitedUrls out.2 = visitedUrls s
  ∧ queue out.2 = queue s
  ∧ crawled out.2 = crawled s
  ∧ page out.2 = (goto B (page s) url).2
  ∧ ((goto B (page s) url).1 = false → out.1 = [] ∧ scrapedData out.2 = scrapedData s)
  ∧ ((goto B (page s) url).1 = true →
       scrapedData out.2 = scrapedData s ++ [RawHtml url (doc_html (page out.2))]).
Proof.
  intros out. subst out.
  pose proof (extractPageContent_effect B url s) as (Hv & Hq & Hc & Hp & Hd).
  cbv zeta in *. split_and!; [done..| |].
  - intros Hgoto. rewrite Hgoto in Hd. by destruct Hd.
  - intros Hgoto. by rewrite Hgoto in Hd.
Qed.

Lemma extractPageContent_frame_witness :
  scrapedData (extractPageContent smallSite BASE_URL start).2
  = [RawHtml BASE_URL "<html>home</html>"]
  ∧ (extractPageContent smallSite "https://elsewhere.example/" start).1 = [].
Proof.
  split.
  - apply (proj2 (proj2 (proj2 (proj2 (proj2
             (extractPageContent_frame smallSite BASE_URL start)))))).
    reflexivity.
  - apply (proj1 (proj2 (proj2 (proj2 (proj2
             (extractPageContent_frame smallSite "https://elsewhere.example/" start)))))).
    reflexivity.
Defined.

(** C8 (as stated) fails: extracting the home page changes run state other
    than the return value: [scrapedData] gains the page's [{url, html}]
    record, and the shared page shows another document. *)
Lemma extractPageContent_changes_scrapedData :
  let out := extractPageContent smallSite BASE_URL start in
  scrapedData start = []
  ∧ scrapedData out.2 = [RawHtml BASE_URL "<html>home</html>"]
  ∧ page out.2 ≠ page start
  ∧ visitedUrls out.2 = visitedUrls start
  ∧ queue out.2 = queue start.
Proof. vm_compute. split_and!; done. Qed.

End Crawl.

(** * Further properties of the code *)

(** ** The crawl loop *)

Section CrawlRun.
Import Crawler.
Implicit Types (B : Browser) (s : Crawl) (url u : string).

(** What holds at the start and is kept by every iteration holds at every
    point of the run. *)
Lemma after_invariant B (P : Crawl → Prop) :
  (∀ s s', P s → step B s = Some s' → P s') →
  ∀ n s, P s → P (after B n s).
Proof.
  intros Hstep n. induction n as [|n IH]; intros s Hs; [done|].
  rewrite after_S. destruct (step B s) as [s'|] eqn:Hs'; [|done].
  eapply IH, Hstep; eauto.
Qed.

(** One iteration, field by field. *)
Lemma step_shape B s s' :
  step B s = Some s' →
  ∃ cur rest, queue s = cur :: rest
    ∧ ((shouldCrawl (visitedUrls s) cur = false
        ∧ s' = mkCrawl (page s) (visitedUrls s) (scrapedData s) rest (crawled s))
       ∨ (shouldCrawl (visitedUrls s) cur = true
          ∧ ∃ out, out = extractPageContent B cur
                     (mkCrawl (page s) ({[cur]} ∪ visitedUrls s) (scrapedData s) rest
                        (crawled s ++ [cur]))
            ∧ visitedUrls s' = {[cur]} ∪ visitedUrls s
            ∧ crawled s' = crawled s ++ [cur]
            ∧ page s' = page out.2
            ∧ scrapedData s' = scrapedData out.2 ++ out.1
            ∧ queue s'
              = enqueueLinks B ({[cur]} ∪ visitedUrls s)
                  (prioritizeLinks B
                     (filter (λ href, Js.truthy href = true) (a_href <$> doc_anchors (page out.2))))
                  rest)).
Proof.
  unfold step. destruct (queue s) as [|cur rest] eqn:Hq; [done|].
  destruct (size (visitedUrls s) <? MAX_PAGES); [|done].
  intros Hs'. exists cur, rest. split; [done|].
  destruct (shouldCrawl (visitedUrls s) cur) eqn:Hc; simpl in Hs'.
  - right. split; [done|].
    set (s1 := mkCrawl _ _ _ _ _) in *.
    pose proof (extractPageContent_effect B cur s1) as (Hv & Hqu & Hl & _).
    exists (extractPageContent B cur s1). split; [done|].
    destruct (extractPageContent B cur s1) as [pageData s2].
    simpl in *. injection Hs' as <-. simpl. rewrite Hv, Hqu, Hl. done.
  - left. split; [done|]. by injection Hs' as <-.
Qed.

Lemma shouldCrawl_admissible (visited : gset string) u :
  shouldCrawl visited u = true → admissible u ∧ u ∉ visited.
Proof.
  unfold shouldCrawl, admissible.
  rewrite !andb_true_iff, !negb_true_iff, orb_false_iff, bool_decide_eq_false.
  tauto.
Qed.

Lemma crawled_admissible B (n : nat) u :
  u ∈ crawled (after B n start) → admissible u.
Proof.
  revert u. apply (after_invariant B (λ s, ∀ u, u ∈ crawled s → admissible u)).
  - intros s s' IH (cur & rest & _ & [(_ & ->)|(Hc & out & _ & _ & Hcr & _)])%step_shape u;
      [apply IH|].
    rewrite Hcr, elem_of_app, list_elem_of_singleton. intros [?| ->]; [by apply IH|].
    by apply shouldCrawl_admissible in Hc as [? _].
  - by intros u ?%elem_of_nil.
Qed.

(** X1. Every url the run crawls passed the admission rules: it starts with
    the base url, is not a recipe filter page, has no fragment and names
    neither facebook.com nor twitter.com. *)
Theorem crawled_urls_admissible B (n : nat) u :
  u ∈ crawled (after B n start) →
  Js.startsWith u BASE_URL = true
  ∧ Js.includes u "recipes?f%5B" = false
  ∧ Js.includes u "recipe_tags_filter" = false
  ∧ Js.includes u "#" = false
  ∧ Js.includes u "facebook.com" = false
  ∧ Js.includes u "twitter.com" = false.
Proof.
  change (u ∈ crawled (after B n start) → admissible u). revert u.
  apply (after_invariant B (λ s, ∀ u, u ∈ crawled s → admissible u)).
  - intros s s' IH Hstep u.
    apply step_shape in Hstep
      as (cur & rest & _ & [(_ & ->)|(Hc & out & _ & _ & Hcrawled & _)]).
    + apply IH.
    + rewrite Hcrawled, elem_of_app, list_elem_of_singleton.
      intros [Hold| ->]; [by apply IH|].
      by apply shouldCrawl_admissible in Hc as [? _].
  - unfold start. cbn [crawled]. by intros u ?%elem_of_nil.
Qed.

Lemma crawled_urls_admissible_witness :
  Js.startsWith recipeUrl BASE_URL = true
  ∧ Js.includes recipeUrl "recipes?f%5B" = false
  ∧ Js.includes recipeUrl "recipe_tags_filter" = false
  ∧ Js.includes recipeUrl "#" = false
  ∧ Js.includes recipeUrl "facebook.com" = false
  ∧ Js.includes recipeUrl "twitter.com" = false.
Proof.
  apply (crawled_urls_admissible smallSite 2 recipeUrl).
  apply (bool_decide_unpack _). vm_compute. exact I.
Defined.

Lemma enqueueLinks_NoDup B (visited : gset string) (links q : list string) :
  NoDup q → NoDup (enqueueLinks B visited links q).
Proof.
  revert q. induction links as [|link links IH]; intros q Hq; simpl; [done|].
  destruct (shouldCrawl visited link); [|by apply IH].
  destruct (parseUrl B link) as [normalized|]; [|done].
  apply IH. unfold Js.arrayIncludes. case_bool_decide; [done|].
  apply NoDup_app. split_and!; [done| |apply NoDup_singleton].
  by intros x Hx ->%list_elem_of_singleton.
Qed.

(** X2. The queue never holds a url twice. *)
Theorem queue_has_no_duplicates B (n : nat) : NoDup (queue (after B n start)).
Proof.
  apply (after_invariant B (λ s, NoDup (queue s))).
  - intros s s' IH (cur & rest & Hq & Hcase)%step_shape.
    rewrite Hq in IH. apply NoDup_cons in IH as [_ Hrest].
    destruct Hcase as [(_ & ->)|(_ & out & _ & _ & _ & _ & _ & ->)]; [done|].
    by apply enqueueLinks_NoDup.
  - apply NoDup_singleton.
Qed.

Lemma extract_scrapedData_prefix B url s :
  scrapedData s `prefix_of` scrapedData (extractPageContent B url s).2.
Proof.
  pose proof (extractPageContent_effect B url s) as (_ & _ & _ & _ & Hd).
  cbv zeta in Hd. destruct ((goto B (page s) url).1).
  - rewrite Hd. by apply prefix_app_r.
  - by destruct Hd as [-> _].
Qed.

(** X3. What has been scraped is never dropped or reordered: at every later
    point of the run [scrapedData] extends what it held before. *)
Theorem scrapedData_only_grows B (n m : nat) :
  scrapedData (after B n start) `prefix_of` scrapedData (after B m (after B n start)).
Proof.
  generalize (after B n start). intros s0.
  apply (after_invariant B (λ s, scrapedData s0 `prefix_of` scrapedData s)); [|done].
  intros s s' IH (cur & rest & _ & [(_ & ->)|(_ & out & -> & _ & _ & _ & -> & _)])%step_shape;
    [done|].
  etrans; [exact IH|]. apply prefix_app_r.
  apply (extract_scrapedData_prefix B cur (mkCrawl _ _ _ _ _)).
Qed.

(** *** What one page yields *)

Lemma textItems_elem (doc : Document) url selector item :
  item ∈ textItems doc url selector →
  ∃ el, el ∈ doc_elements doc ∧ el_tag el = selector
        ∧ item = RawContent selector (Js.trim (el_textContent el)) url
        ∧ Js.trim (el_textContent el) ≠ ""
        ∧ 10 < String.length (Js.trim (el_textContent el)).
Proof.
  unfold textItems. intros (el & Hel & Hitem)%list_elem_of_omap.
  case_bool_decide as Htag; [|done].
  destruct (Js.truthy _ && _) eqn:Hok; [|done].
  apply andb_true_iff in Hok as [Ht%truthy_spec Hlen%Nat.ltb_lt].
  injection Hitem as <-. eauto 10.
Qed.

Lemma imageItems_elem B url (imgs : list Image) items item :
  imageItems B url imgs = Some items → item ∈ items →
  ∃ text u, item = RawContent "image" text u ∧ String.length text ≤ 200.
Proof.
  revert items. induction imgs as [|el imgs IH]; intros items; simpl.
  - intros [= <-]. by intros ?%elem_of_nil.
  - destruct (if Js.truthy (img_src el) then Some (img_src el) else img_dataSrc el)
      as [src|]; [|apply IH].
    destruct (Js.truthy src); [|apply IH].
    destruct (if Js.startsWith src "http" then Some src else resolveUrl B src url)
      as [u|]; simpl; [|done].
    destruct (imageItems B url imgs) as [rest|]; simpl; [|done].
    intros [= <-] [->|Hin]%elem_of_cons; [|by eapply IH].
    eexists _, _. split; [done|]. apply substring0_length.
Qed.

Lemma linkItems_elem (doc : Document) item :
  item ∈ linkItems doc →
  ∃ text u, item = RawContent "link" text u ∧ Js.startsWith u "http" = true.
Proof.
  unfold linkItems. intros (el & _ & Hitem)%list_elem_of_omap.
  destruct (Js.truthy (a_href el) && Js.startsWith (a_href el) "http") eqn:Hok; [|done].
  apply andb_true_iff in Hok as [_ Hhttp]. injection Hitem as <-. eauto.
Qed.

(** The items of a page: text items of the selectors, images, links; all
    with a non-empty text and url. *)
Lemma evaluateContent_elem B (doc : Document) url data item :
  evaluateContent B doc url = Some data → item ∈ data →
  ∃ type text u, item = RawContent type text u ∧ text ≠ "" ∧ u ≠ ""
    ∧ ((type ∈ selectors ∧ u = url ∧ 10 < String.length text
        ∧ ∃ el, el ∈ doc_elements doc ∧ el_tag el = type
                ∧ text = Js.trim (el_textContent el))
       ∨ (type = "image" ∧ String.length text ≤ 200)
       ∨ (type = "link" ∧ Js.startsWith u "http" = true)).
Proof.
  unfold evaluateContent.
  remember (concat (textItems doc url <$> selectors)) as texts eqn:Htexts.
  destruct (imageItems B url (doc_images doc)) as [images|] eqn:Himg; simpl; [|done].
  intros [= <-] [Hok Hin]%list_elem_of_filter.
  assert (∃ type text u, item = RawContent type text u ∧ text ≠ "" ∧ u ≠ "")
    as (type & text & u & -> & Ht & Hu).
  { destruct item as [|type text u]; [done|]. simpl in Hok.
    apply andb_true_iff in Hok as [?%truthy_spec ?%truthy_spec].
    by exists type, text, u. }
  exists type, text, u. split_and!; [done..|].
  rewrite !elem_of_app in Hin. destruct Hin as [Hin|[Hin|Hin]].
  - left. subst texts. apply elem_of_concat in Hin as (l & Hin & Hl).
    apply list_elem_of_fmap in Hl as (sel & -> & Hsel).
    apply textItems_elem in Hin as (el & Hel & Htag & [= -> -> ->] & _ & Hlen).
    split_and!; [done..|]. exists el. split_and!; done.
  - right; left.
    destruct (imageItems_elem B url _ _ _ Himg Hin) as (t & u' & Heq & Hlen).
    injection Heq as -> -> ->. done.
  - right; right.
    destruct (linkItems_elem doc _ Hin) as (t & u' & Heq & Hhttp).
    injection Heq as -> -> ->. done.
Qed.

Lemma extractPageContent_items B url s item :
  item ∈ (extractPageContent B url s).1 →
  ∃ data, evaluateContent B (page (extractPageContent B url s).2) url = Some data
          ∧ item ∈ data.
Proof.
  unfold extractPageContent.
  destruct (goto B (page s) url) as [loaded doc]. destruct loaded; simpl;
    [|by intros ?%elem_of_nil].
  destruct (Js.includes url "/recipe/" && negb (waitForSelector doc)); simpl;
    [by intros ?%elem_of_nil|].
  destruct (evaluateContent B doc url) as [data|] eqn:Hev; simpl;
    [|by intros ?%elem_of_nil].
  eauto.
Qed.

(** X6. Every item [extractPageContent] returns has a non-empty text and a
    non-empty url, and is of one of three kinds: the trimmed text, longer
    than 10 code units, of an element of one of the seven selectors, with
    the page's url; an image, with a text of at most 200 code units; or a
    link whose url starts with "http". *)
Theorem extracted_items_shape B url s item :
  item ∈ (extractPageContent B url s).1 →
  ∃ type text u, item = RawContent type text u ∧ text ≠ "" ∧ u ≠ ""
    ∧ ((type ∈ ["h1"; "h2"; "h3"; "h4"; "p"; "li"; "span"] ∧ u = url
        ∧ 10 < String.length text
        ∧ ∃ el, el ∈ doc_elements (page (extractPageContent B url s).2)
                ∧ el_tag el = type ∧ text = Js.trim (el_textContent el))
       ∨ (type = "image" ∧ String.length text ≤ 200)
       ∨ (type = "link" ∧ Js.startsWith u "http" = true)).
Proof.
  intros (data & Hev & Hin)%extractPageContent_items.
  by eapply evaluateContent_elem.
Qed.

Lemma extracted_items_shape_witness :
  ∃ type text u,
    RawContent "h1" "Made with Nestle recipes" BASE_URL = RawContent type text u
    ∧ text ≠ "" ∧ u ≠ ""
    ∧ ((type ∈ ["h1"; "h2"; "h3"; "h4"; "p"; "li"; "span"] ∧ u = BASE_URL
        ∧ 10 < String.length text
        ∧ ∃ el, el ∈ doc_elements (page (extractPageContent smallSite BASE_URL start).2)
                ∧ el_tag el = type ∧ text = Js.trim (el_textContent el))
       ∨ (type = "image" ∧ String.length text ≤ 200)
       ∨ (type = "link" ∧ Js.startsWith u "http" = true)).
Proof.
  apply (extracted_items_shape smallSite BASE_URL start).
  vm_compute. left.
Defined.

(** *** Records and provenance *)

Lemma htmlRecords_app (d1 d2 : list RawItem) :
  htmlRecords (d1 ++ d2) = htmlRecords d1 ++ htmlRecords d2.
Proof. unfold htmlRecords. apply omap_app. Qed.

Lemma htmlRecords_extracted B url s : htmlRecords (extractPageContent B url s).1 = [].
Proof.
  assert (∀ data : list RawItem,
            (∀ item, item ∈ data → ∃ type text u, item = RawContent type text u) →
            htmlRecords data = []) as Hnone.
  { induction data as [|item data IH]; intros Hall; [done|].
    destruct (Hall item) as (type & text & u & ->); [left|].
    simpl. apply IH. intros item' ?. apply Hall. by right. }
  apply Hnone. intros item Hin.
  apply extractPageContent_items in Hin as (data & Hev & Hin).
  destruct (evaluateContent_elem B _ url data item Hev Hin) as (type & text & u & -> & _).
  eauto.
Qed.

Lemma step_crawled_length B s s' :
  step B s = Some s' →
  length (crawled s) = size (visitedUrls s) →
  length (crawled s') = size (visitedUrls s').
Proof.
  intros (cur & rest & _ & [(_ & ->)|(Hc & out & _ & -> & -> & _)])%step_shape Hlen; [done|].
  apply shouldCrawl_not_visited in Hc.
  assert ({[cur]} ## visitedUrls s) as Hdisj by (by apply disjoint_singleton_l).
  rewrite length_app, (size_union _ _ Hdisj), size_singleton. simpl. lia.
Qed.

Lemma step_htmlRecords B s s' :
  step B s = Some s' →
  htmlRecords (scrapedData s) `sublist_of` crawled s →
  htmlRecords (scrapedData s') `sublist_of` crawled s'.
Proof.
  intros (cur & rest & _ & [(_ & ->)|(_ & out & -> & _ & -> & _ & -> & _)])%step_shape IH;
    [done|].
  set (s1 := mkCrawl _ _ _ _ _).
  pose proof (extractPageContent_effect B cur s1) as (_ & _ & _ & _ & Hd).
  cbv zeta in Hd. rewrite htmlRecords_app, htmlRecords_extracted, app_nil_r.
  destruct ((goto B (page s1) cur).1).
  - rewrite Hd, htmlRecords_app. simpl. by apply sublist_app.
  - destruct Hd as [-> _]. simpl. by apply sublist_inserts_r.
Qed.

(** X4. The [{url, html}] records in [scrapedData] are records of crawled
    pages, in crawl order and at most one per page; so there are never more
    than [MAX_PAGES] of them. *)
Theorem html_records_one_per_page B (n : nat) :
  let s := after B n start in
  htmlRecords (scrapedData s) `sublist_of` crawled s
  ∧ NoDup (htmlRecords (scrapedData s))
  ∧ length (htmlRecords (scrapedData s)) ≤ MAX_PAGES.
Proof.
  intros s.
  assert (htmlRecords (scrapedData s) `sublist_of` crawled s) as Hsub.
  { apply (after_invariant B
             (λ s, htmlRecords (scrapedData s) `sublist_of` crawled s));
      [intros ????; by eapply step_htmlRecords|done]. }
  assert (length (crawled s) = size (visitedUrls s)) as Hlen.
  { apply (after_invariant B (λ s, length (crawled s) = size (visitedUrls s)));
      [intros ????; by eapply step_crawled_length|].
    unfold start. cbn [crawled visitedUrls]. by rewrite size_empty. }
  destruct (after_crawled B n start) as [Hnd _].
  { unfold start. cbn [crawled visitedUrls]. split; [constructor|].
    intros u. split; [by intros ?%elem_of_nil|by intros ?%elem_of_empty]. }
  split_and!; [done|by eapply sublist_NoDup| ].
  apply sublist_length in Hsub. rewrite Hlen in Hsub.
  pose proof (after_visited_bound B n start) as Hb. subst s.
  etrans; [exact Hsub|]. apply Hb.
  unfold start. cbn [visitedUrls]. rewrite size_empty. lia.
Qed.

Lemma crawlLoop_after B (fuel : nat) s s' :
  crawlLoop B fuel s = Some s' → s' = after B fuel s ∧ step B s' = None.
Proof.
  revert s. induction fuel as [|fuel IH]; intros s; simpl.
  - destruct (step B s) eqn:Hs; [done|]. by intros [= <-].
  - destruct (step B s) as [s1|] eqn:Hs; [apply IH|]. by intros [= <-].
Qed.

Lemma step_nothing_scraped B s s' :
  (∀ doc url, (goto B doc url).1 = false) →
  step B s = Some s' → scrapedData s = [] → scrapedData s' = [].
Proof.
  intros Hoff (cur & rest & _ & [(_ & ->)|(_ & out & -> & _ & _ & _ & -> & _)])%step_shape Hs;
    [done|].
  set (s1 := mkCrawl _ _ _ _ _).
  pose proof (extractPageContent_effect B cur s1) as (_ & _ & _ & _ & Hd).
  cbv zeta in Hd. rewrite Hoff in Hd. destruct Hd as [-> ->]. by rewrite app_nil_r.
Qed.

(** X5. When every navigation fails, the run scrapes nothing at any point,
    and [scrapeWebsite] does return: with enough iterations it returns the
    empty list without calling [ingestContent], and it never returns
    anything else. *)
Theorem nothing_scraped_when_offline B :
  (∀ doc url, (goto B doc url).1 = false) →
  (∀ n, scrapedData (after B n start) = [])
  ∧ (∃ fuel, ∀ fails g, scrapeWebsite B fuel fails g = Some ([], None))
  ∧ (∀ fuel fails g result,
       scrapeWebsite B fuel fails g = Some result → result = ([], None)).
Proof.
  intros Hoff.
  assert (∀ n, scrapedData (after B n start) = []) as Hnone.
  { intros n. apply (after_invariant B (λ s, scrapedData s = [])); [|done].
    intros s s' Hs Hstep. by eapply step_nothing_scraped. }
  split; [done|]. split.
  - destruct (crawlLoop_terminates B start) as (fuel & s & Hrun & _).
    exists fuel. intros fails g. unfold scrapeWebsite. rewrite Hrun. simpl.
    apply crawlLoop_after in Hrun as [-> _]. by rewrite Hnone.
  - intros fuel fails g result. unfold scrapeWebsite.
    destruct (crawlLoop B fuel start) as [s|] eqn:Hrun; simpl; [|done].
    apply crawlLoop_after in Hrun as [-> _]. rewrite Hnone. by intros [= <-].
Qed.

Lemma nothing_scraped_when_offline_witness :
  scrapeWebsite offline 1 Graph.noFailure Graph.empty = Some ([], None)
  ∧ scrapedData (after offline 5 start) = [].
Proof.
  assert (∀ doc url, (goto offline doc url).1 = false) as Hoff by reflexivity.
  split.
  - pose proof (proj2 (proj2 (nothing_scraped_when_offline offline Hoff)) 1 Graph.noFailure
                  Graph.empty) as H.
    destruct (scrapeWebsite offline 1 Graph.noFailure Graph.empty) as [r|] eqn:Hr.
    + by rewrite (H r eq_refl).
    + vm_compute in Hr. discriminate.
  - apply (proj1 (nothing_scraped_when_offline offline Hoff)).
Defined.

Lemma validContent_source (content : list RawItem) (r : NormalizedContent) :
  r ∈ Normalizer.validContent content →
  ∃ type text url, RawContent type text url ∈ content
    ∧ type ∈ Normalizer.graphTypes ∧ 10 < String.length text
    ∧ r = mkNormalized type text url (Normalizer.contentId url text).
Proof.
  unfold Normalizer.validContent.
  intros (item & -> & [Hvalid Hin]%list_elem_of_filter)%list_elem_of_fmap.
  apply isValid_spec in Hvalid as (type & text & url & -> & _ & ? & ?).
  by exists type, text, url.
Qed.

Lemma step_graph_items_url B s s' :
  step B s = Some s' →
  (∀ type text u, RawContent type text u ∈ scrapedData s →
                  type ∈ Normalizer.graphTypes → u ∈ crawled s) →
  (∀ type text u, RawContent type text u ∈ scrapedData s' →
                  type ∈ Normalizer.graphTypes → u ∈ crawled s').
Proof.
  intros (cur & rest & _ & [(_ & ->)|(_ & out & Hout & _ & -> & _ & -> & _)])%step_shape IH;
    [done|].
  intros type text u Hin Htype. rewrite elem_of_app. rewrite elem_of_app in Hin.
  destruct Hin as [Hin|Hin].
  - left. apply (IH type text); [|done].
    set (s1 := mkCrawl _ _ _ _ _) in Hout.
    pose proof (extractPageContent_effect B cur s1) as (_ & _ & _ & _ & Hd).
    cbv zeta in Hd. rewrite <- Hout in Hd.
    destruct ((goto B (page s1) cur).1).
    + rewrite Hd, elem_of_app in Hin. destruct Hin as [?|Hin]; [done|].
      by apply list_elem_of_singleton in Hin.
    + destruct Hd as [Hd _]. by rewrite Hd in Hin.
  - right. apply list_elem_of_singleton. rewrite Hout in Hin.
    apply extractPageContent_items in Hin as (data & Hev & Hin).
    destruct (evaluateContent_elem B _ cur data _ Hev Hin)
      as (type' & text' & u' & [= <- <- <-] & _ & _ & [(_ & -> & _)|[[-> _]|[-> _]]]);
      [done| |]; exfalso; revert Htype; by apply (bool_decide_unpack _).
Qed.

(** X7. Every record that normalisation keeps from a run's [scrapedData]
    carries the url of a page the run crawled; so its url starts with the
    base url. *)
Theorem graph_items_come_from_crawled_pages B (n : nat) (r : NormalizedContent) :
  r ∈ Normalizer.validContent (scrapedData (after B n start)) →
  nc_url r ∈ crawled (after B n start) ∧ Js.startsWith (nc_url r) BASE_URL = true.
Proof.
  intros (type & text & u & Hin & Htype & _ & ->)%validContent_source. simpl.
  assert (u ∈ crawled (after B n start)) as Hu.
  { revert type text u Hin Htype.
    apply (after_invariant B
             (λ s, ∀ type text u, RawContent type text u ∈ scrapedData s →
                                  type ∈ Normalizer.graphTypes → u ∈ crawled s)).
    - intros s s' IH Hstep. by eapply step_graph_items_url.
    - by intros ??? ?%elem_of_nil. }
  split; [done|]. by apply crawled_admissible in Hu as [? _].
Qed.

Lemma graph_items_come_from_crawled_pages_witness :
  recipeUrl ∈ crawled (after smallSite 2 start)
  ∧ Js.startsWith recipeUrl BASE_URL = true.
Proof.
  apply (graph_items_come_from_crawled_pages smallSite 2
           (mkNormalized "p" "Mix the chocolate chips into the dough." recipeUrl
              (Normalizer.contentId recipeUrl "Mix the chocolate chips into the dough."))).
  apply (bool_decide_unpack _). vm_compute. exact I.
Defined.

End CrawlRun.

(** ** Graph ingestion *)

Section IngestionRun.
Import Graph.
Implicit Types (g : Store) (content : list RawItem) (fails : nat → bool).

Lemma runPlanned_events fails (plan : list Event) (s : Session) :
  ∃ j, events (stateOf (runPlanned fails plan s)) = events s ++ take j plan.
Proof.
  revert s. induction plan as [|ev plan IH]; intros s; simpl.
  - exists 0. by rewrite app_nil_r.
  - unfold sessionRun. destruct (fails (calls s)).
    + by exists 1.
    + destruct (IH (mkSession (applyBatch (store s) ev) (S (calls s)) (events s ++ [ev])))
        as [j Hj].
      exists (S j). simpl in *. rewrite Hj. by rewrite <- app_assoc.
Qed.

(** The console and statement trace of one run. *)
Lemma ingestContent_events fails g content :
  ∃ j (thrown : bool),
    events (ingestContent fails g content)
    = LogProcessing (length (Normalizer.validContent content))
      :: take j (plannedBatches content)
      ++ (if thrown then [LogError] else []) ++ [SessionClose].
Proof.
  rewrite ingestContent_planned.
  destruct (runPlanned_events fails (plannedBatches content)
              (logEvent (LogProcessing (length (Normalizer.validContent content)))
                 (mkSession g 0 []))) as [j Hj].
  destruct (runPlanned _ _ _) as [s|s]; simpl in *; rewrite Hj.
  - exists j, false. simpl. by rewrite <- ?app_assoc.
  - exists j, true. simpl. by rewrite <- ?app_assoc.
Qed.

(** X8. Whatever writes reject, [ingestContent] returns with the session
    closed as its last action, logs at most one error, and has attempted a
    leading part of its planned statements, in order and without gaps. *)
Theorem ingest_always_closes_session fails g content :
  let s := ingestContent fails g content in
  last (events s) = Some SessionClose
  ∧ errorsLogged (events s) ≤ 1
  ∧ attempts (events s) `prefix_of` plannedBatches content.
Proof.
  intros s. subst s.
  destruct (ingestContent_events fails g content) as (j & thrown & ->).
  assert (Forall (λ ev, isAttempt ev = true ∧ ev ≠ LogError)
            (take j (plannedBatches content))) as Hpre.
  { apply Forall_take, planned_are_attempts. }
  apply attempts_of_planned in Hpre as [Hat Herr].
  split_and!.
  - rewrite app_comm_cons, app_assoc. apply last_snoc.
  - unfold errorsLogged in *. rewrite filter_cons, decide_False by done.
    rewrite !filter_app, !length_app, Herr. destruct thrown; simpl; lia.
  - unfold attempts in *. rewrite filter_cons, decide_False by done.
    rewrite !filter_app, Hat.
    replace (filter _ ((if thrown then [LogError] else []))) with (@nil Event)
      by (by destruct thrown).
    simpl. rewrite app_nil_r. apply prefix_take.
Qed.

Lemma foldl_addEdge_prefix (cs es : list Edge) : es `prefix_of` foldl addEdge es cs.
Proof.
  revert es. induction cs as [|c cs IH]; intros es; simpl; [done|].
  etrans; [|apply IH]. unfold addEdge. case_decide; [done|]. by apply prefix_app_r.
Qed.

(** X9. Ingestion never removes anything: whatever writes reject, every key
    that had a node still has one, and the relationships of the store
    before are the leading part of the relationships after. *)
Theorem ingest_never_removes fails g content :
  let g' := store (ingestContent fails g content) in
  (∀ k, is_Some (nodes g !! k) → is_Some (nodes g' !! k))
  ∧ edges g `prefix_of` edges g'.
Proof.
  intros g'. subst g'.
  destruct (ingestContent_store_shape fails g content) as (items & heads & -> & _).
  split.
  - intros k Hk. rewrite mergeRelated_nodes, mergeNodes_nodes, lookup_foldl_upsert.
    destruct (lastWrite items k); simpl; [by eexists|done].
  - rewrite mergeRelated_edges, mergeNodes_edges. apply foldl_addEdge_prefix.
Qed.

Lemma ingest_never_removes_witness :
  let g := store (ingestContent noFailure empty
                    [RawContent "h2" "Fun Facts about cocoa" "https://x.ca/a"]) in
  is_Some (nodes (store (ingestContent (λ _, true) g
                           [RawContent "p" "Cocoa grows on trees." "https://x.ca/a"]))
           !! "https://x.ca/a-Fun_Facts_about_cocoa").
Proof.
  intros g.
  apply (proj1 (ingest_never_removes (λ _, true) g
                  [RawContent "p" "Cocoa grows on trees." "https://x.ca/a"])).
  vm_compute. by eexists.
Defined.

(** When no item of the content is valid, [ingestContent] runs no statement
    at all and leaves the store as it is, whatever the oracle. *)
Lemma ingest_without_valid_items fails g content :
  Normalizer.validContent content = [] →
  events (ingestContent fails g content) = [LogProcessing 0; SessionClose]
  ∧ store (ingestContent fails g content) = g.
Proof.
  intros Hnone. unfold ingestContent. rewrite Hnone. simpl. done.
Qed.

Lemma ingest_without_valid_items_witness :
  let content := [RawHtml "https://x.ca/a" "<html></html>";
                  RawContent "p" "too short" "https://x.ca/a";
                  RawContent "span" "a span that is long enough" "https://x.ca/a"] in
  events (ingestContent (λ _, true) empty content) = [LogProcessing 0; SessionClose]
  ∧ store (ingestContent (λ _, true) empty content) = empty.
Proof.
  intros content. apply (ingest_without_valid_items (λ _, true) empty content).
  reflexivity.
Defined.

(** X10. With no rejected write, [ingestContent] runs exactly its planned
    statements and logs no error: [kv] node statements and then [kh]
    relationship statements, [kv] being the least number with
    [v <= 100 * kv] for the [v] valid items and [kh] the least with
    [h <= 50 * kh] for the [h] headings among them; so none at all when no
    item is valid. *)
Theorem ingest_statement_count g content :
  let v := length (Normalizer.validContent content) in
  let h := length (Normalizer.headingContent (Normalizer.validContent content)) in
  let s := ingestContent noFailure g content in
  attempts (events s) = plannedBatches content
  ∧ errorsLogged (events s) = 0
  ∧ ∃ kv kh,
      plannedBatches content
      = (RunNodes <$> batchesOf nodeBatchSize (Normalizer.validContent content))
        ++ (RunRelated <$> batchesOf relBatchSize
              (Normalizer.headingContent (Normalizer.validContent content)))
      ∧ kv = length (batchesOf nodeBatchSize (Normalizer.validContent content))
      ∧ kh = length (batchesOf relBatchSize
                       (Normalizer.headingContent (Normalizer.validContent content)))
      ∧ v ≤ 100 * kv < v + 100
      ∧ h ≤ 50 * kh < h + 50.
Proof.
  intros v h s. subst s.
  rewrite ingestContent_planned, runPlanned_all by done. simpl.
  destruct (attempts_of_planned (plannedBatches content) (planned_are_attempts content))
    as [Hat Herr].
  split_and!.
  - unfold attempts in *. rewrite filter_cons, decide_False by done.
    rewrite filter_app, Hat. simpl. by rewrite app_nil_r.
  - unfold errorsLogged in *. rewrite filter_cons, decide_False by done.
    rewrite filter_app, length_app, Herr. reflexivity.
  - eexists _, _. split_and!; [reflexivity..| | | |].
    all: unfold batchesOf.
    1,2: pose proof (batchesFrom_count nodeBatchSize
                       (length (Normalizer.validContent content)) 0
                       (Normalizer.validContent content)) as Hk;
         unfold nodeBatchSize in *; cbv zeta in Hk; fold v in Hk |- *; lia.
    all: pose proof (batchesFrom_count relBatchSize
                       (length (Normalizer.headingContent (Normalizer.validContent content))) 0
                       (Normalizer.headingContent (Normalizer.validContent content))) as Hk;
         unfold relBatchSize in *; cbv zeta in Hk; fold h in Hk |- *; lia.
Qed.

(** *** Nodes written *)

Lemma lastWrite_none (items : list NormalizedContent) (k : string) :
  (∀ x, x ∈ items → nc_id x ≠ k) → lastWrite items k = None.
Proof.
  induction items as [|x items IH]; intros Hno; simpl; [done|].
  rewrite IH by (intros y ?; apply Hno; by right).
  rewrite decide_False; [done|]. apply Hno. left.
Qed.

Lemma lastWrite_last (before after : list NormalizedContent) (x : NormalizedContent) :
  (∀ y, y ∈ after → nc_id y ≠ nc_id x) →
  lastWrite (before ++ x :: after) (nc_id x) = Some (nodeOf x).
Proof.
  intros Hafter. induction before as [|b before IH]; simpl.
  - rewrite (lastWrite_none after) by done. by rewrite decide_True.
  - by rewrite IH.
Qed.

(** X11. After an ingestion with no rejected write, the node under an
    item's id holds the text, type and url of the last valid item with that
    id, and the nodes under ids that no valid item has are as before. *)
Theorem ingested_nodes_hold_last_item g content :
  let written := nodes (store (ingestContent noFailure g content)) in
  (∀ before x after,
     Normalizer.validContent content = before ++ x :: after →
     (∀ y, y ∈ after → nc_id y ≠ nc_id x) →
     written !! nc_id x = Some (mkNode (nc_text x) (nc_type x) (nc_url x)))
  ∧ (∀ k, (∀ x, x ∈ Normalizer.validContent content → nc_id x ≠ k) →
          written !! k = nodes g !! k).
Proof.
  intros written. subst written. rewrite ingestContent_nodes. split.
  - intros before x after Hsplit Hlast.
    by rewrite lookup_foldl_upsert, Hsplit, lastWrite_last.
  - intros k Hk. by rewrite lookup_foldl_upsert, lastWrite_none.
Qed.

Lemma ingested_nodes_hold_last_item_witness :
  let content := [RawContent "h2" "Fun Facts about cocoa" "https://x.ca/a";
                  RawContent "p" "Fun Facts about cocoa" "https://x.ca/a"] in
  nodes (store (ingestContent noFailure empty content))
    !! "https://x.ca/a-Fun_Facts_about_cocoa"
  = Some (mkNode "Fun Facts about cocoa" "p" "https://x.ca/a")
  ∧ nodes (store (ingestContent noFailure empty content)) !! "https://x.ca/b-other"
    = nodes empty !! "https://x.ca/b-other".
Proof.
  intros content. split.
  - apply (proj1 (ingested_nodes_hold_last_item empty content)
             [mkNormalized "h2" "Fun Facts about cocoa" "https://x.ca/a"
                "https://x.ca/a-Fun_Facts_about_cocoa"]
             (mkNormalized "p" "Fun Facts about cocoa" "https://x.ca/a"
                "https://x.ca/a-Fun_Facts_about_cocoa")
             []).
    + reflexivity.
    + by intros y ?%elem_of_nil.
  - apply (proj2 (ingested_nodes_hold_last_item empty content)).
    intros x Hx. apply (bool_decide_unpack _). revert x Hx.
    apply Forall_forall. apply (bool_decide_unpack _). vm_compute. exact I.
Defined.

(** *** Relationships created *)

Lemma relatedEdges_elem g (item : NormalizedContent) (e : Edge) :
  e ∈ relatedEdges g item ↔
  ∃ n oid other,
    nodes g !! nc_id item = Some n ∧ nodes g !! oid = Some other
    ∧ related (nc_id item) n oid other = true
    ∧ e = mkEdge (nc_id item) oid (Some "section").
Proof.
  unfold relatedEdges. destruct (nodes g !! nc_id item) as [n|] eqn:Hn.
  - rewrite list_elem_of_fmap. split.
    + intros ([oid other] & -> & [Hrel Hin]%list_elem_of_filter).
      apply elem_of_map_to_list in Hin. simpl in *.
      exists n, oid, other. done.
    + intros (n' & oid & other & [= <-] & Ho & Hrel & ->).
      exists (oid, other). split; [done|].
      apply list_elem_of_filter. split; [done|]. by apply elem_of_map_to_list.
  - split; [by intros ?%elem_of_nil|]. by intros (? & ? & ? & ? & _).
Qed.

Lemma related_spec (nid : string) (n : Node) (oid : string) (other : Node) :
  related nid n oid other = true ↔
  n_url other = n_url n ∧ n_type other ∈ ["p"; "li"]
  ∧ Js.includes (n_text other) (n_text n) = true
  ∧ 5 < String.length (n_text n) ∧ oid ≠ nid.
Proof.
  unfold related.
  rewrite !andb_true_iff, negb_true_iff, bool_decide_eq_true, bool_decide_eq_false,
    arrayIncludes_spec, Nat.ltb_lt.
  tauto.
Qed.

(** Whatever rejects, the store ends as some of the node items and then
    some of the headings leave it. *)
Lemma ingestContent_store_heads fails g content :
  ∃ items heads,
    store (ingestContent fails g content) = mergeRelated heads (mergeNodes items g)
    ∧ Forall (λ h, h ∈ Normalizer.headingContent (Normalizer.validContent content)) heads.
Proof.
  destruct (ingestContent_store_prefix fails g content) as [k ->].
  unfold plannedBatches. rewrite take_app, foldl_app, <- !fmap_take.
  rewrite applyBatch_nodes, applyBatch_related.
  eexists _, _. split; [done|].
  apply Forall_forall. intros x (l & Hx & Hl)%elem_of_concat.
  rewrite <- (batchesOf_concat relBatchSize
                (Normalizer.headingContent (Normalizer.validContent content)))
    by (unfold relBatchSize; lia).
  apply elem_of_concat. exists l. split; [done|].
  eapply subseteq_take, Hl.
Qed.

(** X12. Every relationship a run adds, whichever writes reject, starts at
    the id of a heading item of the content, is tagged "section", and ends
    at another node whose type is p or li and whose text contains the
    source node's text, that text being longer than 5 characters. *)
Theorem new_edges_link_heading_to_body fails g content (e : Edge) :
  let g' := store (ingestContent fails g content) in
  e ∈ edges g' → e ∉ edges g →
  ∃ h n other,
    h ∈ Normalizer.headingContent (Normalizer.validContent content)
    ∧ e = mkEdge (nc_id h) (e_target e) (Some "section")
    ∧ nodes g' !! e_source e = Some n ∧ nodes g' !! e_target e = Some other
    ∧ n_type other ∈ ["p"; "li"]
    ∧ Js.includes (n_text other) (n_text n) = true
    ∧ 5 < String.length (n_text n)
    ∧ e_target e ≠ e_source e.
Proof.
  intros g'. subst g'.
  destruct (ingestContent_store_heads fails g content) as (items & heads & -> & Hheads).
  rewrite mergeRelated_nodes, mergeRelated_edges, mergeNodes_edges, foldl_addEdge_elem.
  intros [?|Hin] Hnew; [done|].
  apply list_elem_of_bind in Hin as (h & He & Hh).
  apply relatedEdges_elem in He as (n & oid & other & Hn & Ho & Hrel & ->).
  apply related_spec in Hrel as (_ & ? & ? & ? & ?).
  rewrite Forall_forall in Hheads.
  exists h, n, other. simpl. split_and!; auto.
Qed.

Lemma new_edges_link_heading_to_body_witness :
  let content := [RawContent "h2" "Fun Facts about cocoa" "https://x.ca/a";
                  RawContent "p" "Fun Facts about cocoa: it grows on trees" "https://x.ca/a"] in
  let e := mkEdge "https://x.ca/a-Fun_Facts_about_cocoa"
             "https://x.ca/a-Fun_Facts_about_cocoa__it_grows_on_trees" (Some "section") in
  ∃ h n other,
    h ∈ Normalizer.headingContent (Normalizer.validContent content)
    ∧ e = mkEdge (nc_id h) (e_target e) (Some "section")
    ∧ nodes (store (ingestContent noFailure empty content)) !! e_source e = Some n
    ∧ nodes (store (ingestContent noFailure empty content)) !! e_target e = Some other
    ∧ n_type other ∈ ["p"; "li"]
    ∧ Js.includes (n_text other) (n_text n) = true
    ∧ 5 < String.length (n_text n)
    ∧ e_target e ≠ e_source e.
Proof.
  intros content e.
  apply (new_edges_link_heading_to_body noFailure empty content e).
  - vm_compute. left.
  - simpl. apply not_elem_of_nil.
Defined.

(** X13. With no rejected write the relationship phase is complete: for
    every heading item and every node that the statement's condition
    matches against the heading's node, the store holds the relationship
    afterwards. *)
Theorem matching_pairs_are_linked g content (h : NormalizedContent) (n : Node)
    (oid : string) (other : Node) :
  let g' := store (ingestContent noFailure g content) in
  h ∈ Normalizer.headingContent (Normalizer.validContent content) →
  nodes g' !! nc_id h = Some n →
  nodes g' !! oid = Some other →
  n_url other = n_url n → n_type other ∈ ["p"; "li"] →
  Js.includes (n_text other) (n_text n) = true →
  5 < String.length (n_text n) → oid ≠ nc_id h →
  mkEdge (nc_id h) oid (Some "section") ∈ edges g'.
Proof.
  intros g' Hh Hn Ho Hurl Htype Hinc Hlen Hne. subst g'.
  rewrite ingestContent_edges. cbv zeta. apply foldl_addEdge_elem. right.
  rewrite ingestContent_store, mergeRelated_nodes in Hn, Ho.
  apply list_elem_of_bind. exists h. split; [|done].
  apply relatedEdges_elem. exists n, oid, other. split_and!; [done..| |done].
  by apply related_spec.
Qed.

Lemma matching_pairs_are_linked_witness :
  let content := [RawContent "h2" "Fun Facts about cocoa" "https://x.ca/a";
                  RawContent "li" "Fun Facts about cocoa: it grows on trees" "https://x.ca/a"] in
  mkEdge "https://x.ca/a-Fun_Facts_about_cocoa"
    "https://x.ca/a-Fun_Facts_about_cocoa__it_grows_on_trees" (Some "section")
  ∈ edges (store (ingestContent noFailure empty content)).
Proof.
  intros content.
  apply (matching_pairs_are_linked empty content
           (mkNormalized "h2" "Fun Facts about cocoa" "https://x.ca/a"
              "https://x.ca/a-Fun_Facts_about_cocoa")
           (mkNode "Fun Facts about cocoa" "h2" "https://x.ca/a")
           "https://x.ca/a-Fun_Facts_about_cocoa__it_grows_on_trees"
           (mkNode "Fun Facts about cocoa: it grows on trees" "li" "https://x.ca/a")).
  - vm_compute. left.
  - vm_compute. reflexivity.
  - vm_compute. reflexivity.
  - reflexivity.
  - right. left.
  - reflexivity.
  - simpl. lia.
  - discriminate.
Defined.

(** *** Ids *)

Lemma contentId_congr (url text1 text2 : string) :
  Js.replaceNonAlnum (String.substring 0 50 text1)
  = Js.replaceNonAlnum (String.substring 0 50 text2) →
  Normalizer.contentId url text1 = Normalizer.contentId url text2.
Proof. unfold Normalizer.contentId, Js.substring0. by intros ->. Qed.

(** X14. Two ids are equal exactly when their urls are equal and the
    sanitized first 50 code units of their texts are equal: the url can be
    read back from an id, and items of different urls never share a node. *)
Theorem contentId_equal_iff (url1 url2 text1 text2 : string) :
  Normalizer.contentId url1 text1 = Normalizer.contentId url2 text2 ↔
  url1 = url2
  ∧ Js.replaceNonAlnum (String.substring 0 50 text1)
    = Js.replaceNonAlnum (String.substring 0 50 text2).
Proof.
  unfold Normalizer.contentId, Js.substring0. split.
  - intros Heq.
    assert (url1 = url2) as <-.
    { eapply key_split_unique; [| |exact Heq]; apply replaceNonAlnum_dashFree. }
    split; [done|]. by do 2 apply append_inj in Heq.
  - by intros [-> ->].
Qed.

Lemma valid_pair (type1 type2 text1 text2 url : string) :
  type1 ∈ Normalizer.graphTypes → type2 ∈ Normalizer.graphTypes →
  10 < String.length text1 → 10 < String.length text2 →
  Normalizer.validContent [RawContent type1 text1 url; RawContent type2 text2 url]
  = [mkNormalized type1 text1 url (Normalizer.contentId url text1);
     mkNormalized type2 text2 url (Normalizer.contentId url text2)].
Proof.
  intros Ht1 Ht2 Hl1 Hl2.
  assert (∀ type text, type ∈ Normalizer.graphTypes → 10 < String.length text →
                       Normalizer.isValid (RawContent type text url) = true) as Hvalid.
  { intros type text ? Hlen. apply isValid_spec. exists type, text, url.
    split_and!; [done| |done..]. intros ->. simpl in Hlen. lia. }
  unfold Normalizer.validContent.
  rewrite filter_cons, decide_True by auto.
  rewrite filter_cons, decide_True by auto.
  done.
Qed.

(** X15. The id looks at the first 50 code units of the text only: two
    valid items of one url whose texts agree on their first 50 code units
    get the same id, and ingesting both leaves one node for them, holding
    the text and type of the later item. *)
Theorem same_prefix_items_share_a_node g (type1 type2 text1 text2 url : string) :
  type1 ∈ ["h1"; "h2"; "h3"; "h4"; "p"; "li"] →
  type2 ∈ ["h1"; "h2"; "h3"; "h4"; "p"; "li"] →
  10 < String.length text1 → 10 < String.length text2 →
  String.substring 0 50 text1 = String.substring 0 50 text2 →
  let g' := store (ingestContent noFailure g
                     [RawContent type1 text1 url; RawContent type2 text2 url]) in
  Normalizer.contentId url text1 = Normalizer.contentId url text2
  ∧ nodes g' !! Normalizer.contentId url text1 = Some (mkNode text2 type2 url)
  ∧ size (nodes g') ≤ S (size (nodes g)).
Proof.
  intros Ht1 Ht2 Hl1 Hl2 Hpre g'.
  assert (Normalizer.contentId url text1 = Normalizer.contentId url text2) as Hid.
  { apply contentId_congr. by rewrite Hpre. }
  subst g'. rewrite ingestContent_nodes, valid_pair by done.
  simpl. unfold upsert, nodeOf. simpl. rewrite Hid, insert_insert_eq.
  split_and!; [done|by rewrite lookup_insert_eq|].
  destruct (nodes g !! Normalizer.contentId url text2) eqn:Hold.
  - rewrite map_size_insert_Some by done. lia.
  - rewrite map_size_insert_None by done. lia.
Qed.

Lemma same_prefix_items_share_a_node_witness :
  let text1 := "The quick brown fox jumps over the lazy dog and the cat, part one" in
  let text2 := "The quick brown fox jumps over the lazy dog and the cat, part two" in
  let g' := store (ingestContent noFailure empty
                     [RawContent "p" text1 "https://x.ca/a";
                      RawContent "li" text2 "https://x.ca/a"]) in
  nodes g' !! Normalizer.contentId "https://x.ca/a" text1
  = Some (mkNode text2 "li" "https://x.ca/a").
Proof.
  intros text1 text2 g'.
  apply (same_prefix_items_share_a_node empty "p" "li" text1 text2 "https://x.ca/a").
  - apply (bool_decide_unpack _). reflexivity.
  - apply (bool_decide_unpack _). reflexivity.
  - vm_compute. lia.
  - vm_compute. lia.
  - reflexivity.
Defined.

End IngestionRun.

(** ** Graph queries, continued *)

Section QueryResults.
Import Retrieval.
Implicit Types (apoc : Apoc) (g : Graph.Store) (r : Row) (x : Q).
Local Existing Instances bySimilarityDesc_total bySimilarityDesc_trans.

Lemma floor_hundredths_near x :
  (inject_Z (Qfloor (x * 100 + (1 # 2))) / 100 - x <= 1 # 200)%Q
  ∧ (- (1 # 200) <= inject_Z (Qfloor (x * 100 + (1 # 2))) / 100 - x)%Q.
Proof.
  pose proof (Qfloor_le (x * 100 + (1 # 2))) as Hlo.
  pose proof (Qlt_floor (x * 100 + (1 # 2))) as Hhi.
  rewrite inject_Z_plus in Hhi. change (inject_Z 1) with 1%Q in Hhi.
  generalize dependent (inject_Z (Qfloor (x * 100 + (1 # 2)))). intros n Hlo Hhi.
  assert (n / 100 == n * (1 # 100))%Q as -> by field.
  split; lra.
Qed.

(** X16. [toFixed(2)] is off by at most half a hundredth: the reported
    confidence differs from the similarity by at most 0.005. *)
Theorem toFixed2_within_half_a_hundredth x :
  (Qabs (valueOf (toFixed2 x) - x) <= 1 # 200)%Q.
Proof.
  apply Qabs_Qle_condition. unfold toFixed2, valueOf.
  destruct (Qlt_le_dec x 0) as [Hneg|Hpos]; cbn [negative hundredths].
  - destruct (floor_hundredths_near (- x)) as [Hlo Hhi]. revert Hlo Hhi.
    generalize (inject_Z (Qfloor (- x * 100 + (1 # 2))) / 100)%Q. intros v ??.
    split; lra.
  - destruct (floor_hundredths_near x) as [Hlo Hhi]. revert Hlo Hhi.
    generalize (inject_Z (Qfloor (x * 100 + (1 # 2))) / 100)%Q. intros v ??.
    split; lra.
Qed.

Lemma matchRows_elem apoc g (query : string) r :
  r ∈ matchRows apoc g query ↔
  ∃ e n m,
    e ∈ Graph.edges g
    ∧ Graph.nodes g !! Graph.e_source e = Some n
    ∧ Graph.nodes g !! Graph.e_target e = Some m
    ∧ (Js.includes (Graph.n_text n) query = true ∨ Js.includes (Graph.n_text m) query = true)
    ∧ r = mkRow (Graph.n_text n) (Graph.e_context e) (Graph.n_text m)
            (Graph.n_url n) (Graph.n_url m)
            (jaroWinklerDistance apoc (clean apoc (Graph.n_text n))
               (clean apoc (Graph.n_text m))).
Proof.
  unfold matchRows. rewrite list_elem_of_omap. split.
  - intros (e & He & Hrow).
    destruct (Graph.nodes g !! Graph.e_source e) as [n|] eqn:Hn; [|done].
    destruct (Graph.nodes g !! Graph.e_target e) as [m|] eqn:Hm; [|done].
    simpl in Hrow. destruct (_ || _) eqn:Hq; [|done].
    apply orb_true_iff in Hq. injection Hrow as <-.
    exists e, n, m. done.
  - intros (e & n & m & He & Hn & Hm & Hq & ->).
    exists e. split; [done|]. rewrite Hn, Hm. simpl.
    apply orb_true_iff in Hq. by rewrite Hq.
Qed.

Lemma relatedRows_elem apoc g (query : string) r :
  r ∈ relatedRows apoc g query →
  r ∈ matchRows apoc g query ∧ (6 # 10 < row_similarity r)%Q.
Proof.
  unfold relatedRows. intros Hr%subseteq_take.
  rewrite merge_sort_Permutation in Hr.
  apply list_elem_of_filter in Hr as [Hab Hr]. split; [done|].
  by apply aboveThreshold_spec.
Qed.

(** X17. Every relation [queryRelatedConcepts] returns is read off a
    relationship of the store: source and target texts and urls are those
    of its two nodes, the question is a substring of at least one of the
    two texts, and the relationship label is never empty. *)
Theorem relations_come_from_matching_edges apoc (fails : bool) g (query : string)
    (rel : Relation) :
  rel ∈ queryRelatedConcepts apoc fails g query →
  ∃ e n m,
    e ∈ Graph.edges g
    ∧ Graph.nodes g !! Graph.e_source e = Some n
    ∧ Graph.nodes g !! Graph.e_target e = Some m
    ∧ source rel = Graph.n_text n ∧ target rel = Graph.n_text m
    ∧ sourceUrl rel = Graph.n_url n ∧ targetUrl rel = Graph.n_url m
    ∧ (Js.includes (Graph.n_text n) query = true ∨ Js.includes (Graph.n_text m) query = true)
    ∧ relationship rel ≠ "".
Proof.
  unfold queryRelatedConcepts. destruct fails; [by intros ?%elem_of_nil|].
  intros (r & -> & [Hr _]%relatedRows_elem)%list_elem_of_fmap.
  apply matchRows_elem in Hr as (e & n & m & He & Hn & Hm & Hq & ->).
  exists e, n, m. simpl. split_and!; [done..|].
  destruct (Graph.e_context e) as [c|]; [|done].
  unfold Js.or_else. destruct (Js.truthy c) eqn:Hc; [|done].
  by apply truthy_spec.
Qed.

Lemma relations_come_from_matching_edges_witness :
  let apoc := mkApoc (λ s, s) (λ _ _, (9 # 10)%Q) in
  let g := Graph.store (Graph.ingestContent Graph.noFailure Graph.empty
             [RawContent "h2" "Fun Facts about cocoa" "https://x.ca/a";
              RawContent "p" "Fun Facts about cocoa: it grows on trees" "https://x.ca/a"]) in
  let rel := mkRelation "Fun Facts about cocoa" "section"
               "Fun Facts about cocoa: it grows on trees"
               "https://x.ca/a" "https://x.ca/a" (mkFixed2 false 90) in
  ∃ e n m,
    e ∈ Graph.edges g
    ∧ Graph.nodes g !! Graph.e_source e = Some n
    ∧ Graph.nodes g !! Graph.e_target e = Some m
    ∧ source rel = Graph.n_text n ∧ target rel = Graph.n_text m
    ∧ sourceUrl rel = Graph.n_url n ∧ targetUrl rel = Graph.n_url m
    ∧ (Js.includes (Graph.n_text n) "cocoa" = true
       ∨ Js.includes (Graph.n_text m) "cocoa" = true)
    ∧ relationship rel ≠ "".
Proof.
  intros apoc g rel.
  apply (relations_come_from_matching_edges apoc false g "cocoa" rel).
  vm_compute. left.
Defined.

Lemma Built_wellKeyed g : Graph.Built g → Graph.wellKeyed g.
Proof.
  induction 1 as [|fails g content _ IH].
  - split; simpl; [intros id n Hid; by rewrite lookup_empty in Hid
                  |by intros ? ?%elem_of_nil].
  - destruct (ingestContent_store_shape fails g content) as (items & heads & -> & Hitems).
    apply mergeRelated_wellKeyed, mergeNodes_wellKeyed; [|done].
    eapply Forall_impl; [exact Hitems|]. intros x. apply validContent_id.
Qed.

(** X18. On a store built by ingestion, every relation the query returns
    has the same source and target url. *)
Theorem relations_stay_within_one_page apoc (fails : bool) g (query : string)
    (rel : Relation) :
  Graph.Built g →
  rel ∈ queryRelatedConcepts apoc fails g query →
  sourceUrl rel = targetUrl rel.
Proof.
  intros [_ Hedges]%Built_wellKeyed.
  unfold queryRelatedConcepts. destruct fails; [by intros ?%elem_of_nil|].
  intros (r & -> & [Hr _]%relatedRows_elem)%list_elem_of_fmap.
  apply matchRows_elem in Hr as (e & n & m & He & Hn & Hm & _ & ->). simpl.
  destruct (Hedges e He) as (n' & m' & Hn' & Hm' & Hurl). congruence.
Qed.

Lemma relations_stay_within_one_page_witness :
  let apoc := mkApoc (λ s, s) (λ _ _, (9 # 10)%Q) in
  let g := Graph.store (Graph.ingestContent Graph.noFailure Graph.empty
             [RawContent "h2" "Fun Facts about cocoa" "https://x.ca/a";
              RawContent "p" "Fun Facts about cocoa: it grows on trees" "https://x.ca/a"]) in
  let rel := mkRelation "Fun Facts about cocoa" "section"
               "Fun Facts about cocoa: it grows on trees"
               "https://x.ca/a" "https://x.ca/a" (mkFixed2 false 90) in
  queryRelatedConcepts apoc false g "cocoa" = [rel]
  ∧ sourceUrl rel = targetUrl rel.
Proof.
  intros apoc g rel. split; [vm_compute; reflexivity|].
  apply (relations_stay_within_one_page apoc false g "cocoa" rel).
  - apply Graph.Built_ingest, Graph.Built_empty.
  - vm_compute. left.
Defined.

(** X19. [LIMIT 10] after [ORDER BY similarity DESC] keeps the best rows:
    the statement returns min(10, number of matching rows above the
    threshold) rows, each of them such a row, and every such row it leaves
    out has a similarity at most that of every row it returns. *)
Theorem limit_keeps_most_similar apoc g (query : string) :
  let candidates := filter (λ r, aboveThreshold r = true) (matchRows apoc g query) in
  length (relatedRows apoc g query) = 10 `min` length candidates
  ∧ length (queryRelatedConcepts apoc false g query) = 10 `min` length candidates
  ∧ (∀ r, r ∈ relatedRows apoc g query → r ∈ candidates)
  ∧ (∀ r r', r ∈ relatedRows apoc g query → r' ∈ candidates →
             r' ∉ relatedRows apoc g query →
             (row_similarity r' <= row_similarity r)%Q).
Proof.
  intros candidates. unfold queryRelatedConcepts, relatedRows. fold candidates.
  pose proof (merge_sort_Permutation bySimilarityDesc candidates) as Hperm.
  pose proof (StronglySorted_merge_sort bySimilarityDesc candidates) as Hsorted.
  set (sorted := merge_sort bySimilarityDesc candidates) in *.
  assert (length (take 10 sorted) = 10 `min` length candidates) as Hlen.
  { rewrite length_take. by rewrite Hperm. }
  split_and!; [done|by rewrite length_fmap| |].
  - intros r Hr%subseteq_take. by rewrite <- Hperm.
  - intros r r' Hr Hr' Hout.
    rewrite <- Hperm, <- (take_drop 10 sorted), elem_of_app in Hr'.
    destruct Hr' as [?|Hr']; [done|].
    rewrite <- (take_drop 10 sorted) in Hsorted.
    pose proof (StronglySorted_app_1_elem_of _ _ _ r r' Hsorted Hr Hr') as Hle.
    unfold bySimilarityDesc in Hle. by apply Qle_bool_iff.
Qed.

Lemma limit_keeps_most_similar_witness :
  let apoc := mkApoc (λ s, s) (λ a _, if Js.includes a "cocoa" then (9 # 10)%Q else (7 # 10)%Q) in
  let g := Graph.store (Graph.ingestContent Graph.noFailure Graph.empty
             [RawContent "h2" "Fun Facts about cocoa" "https://x.ca/a";
              RawContent "p" "Fun Facts about cocoa: it grows on trees" "https://x.ca/a"]) in
  let r := mkRow "Fun Facts about cocoa" (Some "section")
             "Fun Facts about cocoa: it grows on trees"
             "https://x.ca/a" "https://x.ca/a" (9 # 10) in
  r ∈ filter (λ r, aboveThreshold r = true) (matchRows apoc g "cocoa").
Proof.
  intros apoc g r.
  apply (proj1 (proj2 (proj2 (limit_keeps_most_similar apoc g "cocoa")))).
  vm_compute. left.
Defined.

End QueryResults.

(** ** The chat handler, continued *)

Section ChatResponses.
Import Chat.
Implicit Types (sv : Services) (apoc : Retrieval.Apoc) (g : Graph.Store).

Lemma string_length_append (s t : string) :
  String.length (s +:+ t) = String.length s + String.length t.
Proof.
  induction s as [|c s IH]; [done|].
  rewrite append_cons. simpl. by rewrite IH.
Qed.

Lemma chat_cases sv apoc g (message : option string) :
  (chat sv apoc g message = mkResponse 400 (ErrorBody "Message is required" None)
   ∧ (message = None ∨ message = Some ""))
  ∨ (∃ m err, message = Some m ∧ m ≠ ""
       ∧ chat sv apoc g message = serverError sv err
       ∧ (search sv m = Rejected err
          ∨ ∃ hits, search sv m = Resolved hits
              ∧ complete sv (promptOf m (searchContentOf hits)
                               (graphContribution sv apoc g m)) = Rejected err))
  ∨ (∃ m hits answer, message = Some m ∧ m ≠ ""
       ∧ search sv m = Resolved hits
       ∧ complete sv (promptOf m (searchContentOf hits) (graphContribution sv apoc g m))
         = Resolved answer
       ∧ chat sv apoc g message
         = mkResponse 200
             (ChatBody answer
                (sourcesOf (searchContentOf hits) (graphContribution sv apoc g m)))).
Proof.
  destruct message as [m|]; [|left; split; [done|by left]].
  destruct (decide (m = "")) as [->|Hne]; [left; split; [done|by right]|].
  right. rewrite chat_with_message by done.
  destruct (search sv m) as [hits|err] eqn:Hs.
  - cbv zeta.
    destruct (complete sv _) as [answer|err] eqn:Hc.
    + right. exists m, hits, answer. done.
    + left. exists m, err. split_and!; [done..|]. right. by exists hits.
  - left. exists m, err. split_and!; [done..|]. by left.
Qed.


(** X21. Outside development no internal error text reaches the client:
    every error body the handler sends has no [details]. *)
Theorem chat_hides_error_details sv apoc g (message : option string) (error : string)
    (details : option string) :
  development sv = false →
  body (chat sv apoc g message) = ErrorBody error details →
  details = None.
Proof.
  intros Hdev.
  destruct (chat_cases sv apoc g message)
    as [[-> _]|[(m & err & _ & _ & -> & _)|(m & hits & answer & _ & _ & _ & _ & ->)]];
    simpl; [by intros [= _ <-]| |done].
  rewrite Hdev. by intros [= _ <-].
Qed.

Lemma chat_hides_error_details_witness :
  let sv := mkServices (λ _, Rejected "ECONNRESET 10.0.0.7:443") false
              (λ _, Resolved "It grows on trees.") false in
  let apoc := Retrieval.mkApoc (λ s, s) (λ _ _, 1%Q) in
  body (chat sv apoc Graph.empty (Some "cocoa")) = ErrorBody tryAgainLater None.
Proof.
  intros sv apoc.
  destruct (body (chat sv apoc Graph.empty (Some "cocoa"))) as [error details|] eqn:Hb.
  - rewrite (chat_hides_error_details sv apoc Graph.empty (Some "cocoa") error details
               eq_refl Hb).
    vm_compute in Hb. by injection Hb as <- _.
  - vm_compute in Hb. discriminate.
Defined.

Lemma queryRelatedConcepts_length apoc (fails : bool) g (query : string) :
  length (Retrieval.queryRelatedConcepts apoc fails g query) ≤ 10.
Proof.
  unfold Retrieval.queryRelatedConcepts. destruct fails; simpl; [lia|].
  rewrite length_fmap. apply relatedRows_shape.
Qed.

(** X22. In a 200 answer the sources list the search results first, in
    their order: each with its url and, as text, the first 200 code units of
    the result's text followed by an ellipsis, so at most 203 units. After
    them come the graph relations of the question, at most 10, each as
    "source relationship target" with the source's url, or the target's
    when the source has none. *)
Theorem chat_sources_shape sv apoc g (body : RequestBody) (answer : string)
    (sources : list SourceRef) :
  apiChat sv apoc g body = Some (mkResponse 200 (ChatBody answer sources)) →
  ∃ m hits,
    body = BodyParsed (Some m) ∧ search sv m = Resolved hits
    ∧ take (length hits) sources
      = (λ h, mkSourceRef (String.substring 0 200 (hit_text h) +:+ "...") (hit_url h))
          <$> hits
    ∧ Forall (λ src, String.length (ref_text src) ≤ 203) (take (length hits) sources)
    ∧ drop (length hits) sources
      = (λ rel, mkSourceRef
                  (Retrieval.source rel +:+ " " +:+ Retrieval.relationship rel
                   +:+ " " +:+ Retrieval.target rel)
                  (if decide (Retrieval.sourceUrl rel = "") then Retrieval.targetUrl rel
                   else Retrieval.sourceUrl rel))
          <$> graphContribution sv apoc g m
    ∧ length hits ≤ length sources ≤ length hits + 10.
Proof.
  destruct body as [|message]; [done|]. simpl.
  destruct (chat_cases sv apoc g message)
    as [[-> _]|[(m & err & _ & _ & -> & _)|(m & hits & answer' & -> & _ & Hs & _ & ->)]];
    [done..|].
  intros [= _ <-]. exists m, hits.
  assert (take (length hits) (sourcesOf (searchContentOf hits) (graphContribution sv apoc g m))
          = (λ h, mkSourceRef (String.substring 0 200 (hit_text h) +:+ "...") (hit_url h))
              <$> hits) as Htake.
  { unfold sourcesOf, searchContentOf.
    rewrite take_app_length' by (by rewrite !length_fmap).
    rewrite <- list_fmap_compose. done. }
  split_and!.
  - done.
  - done.
  - exact Htake.
  - rewrite Htake. apply Forall_fmap, Forall_true. intros h. simpl.
    rewrite string_length_append. pose proof (substring0_length 200 (hit_text h)) as Hlen.
    unfold Js.substring0 in Hlen. simpl. lia.
  - unfold sourcesOf, searchContentOf.
    rewrite drop_app_length' by (by rewrite !length_fmap).
    apply list_fmap_ext. intros _ rel _. f_equal.
    unfold Js.or_else. by destruct (Retrieval.sourceUrl rel).
  - unfold sourcesOf, searchContentOf. rewrite length_app, !length_fmap. lia.
  - unfold sourcesOf, searchContentOf. rewrite length_app, !length_fmap.
    pose proof (queryRelatedConcepts_length apoc (graphFails sv) g m).
    unfold graphContribution. lia.
Qed.

Lemma chat_sources_shape_witness :
  let sv := mkServices
              (λ _, Resolved [mkHit "Cocoa grows on trees." "https://x.ca/a" None])
              false (λ _, Resolved "It grows on trees.") false in
  let apoc := Retrieval.mkApoc (λ s, s) (λ _ _, (9 # 10)%Q) in
  let g := Graph.store (Graph.ingestContent Graph.noFailure Graph.empty
             [RawContent "h2" "Fun Facts about cocoa" "https://x.ca/a";
              RawContent "p" "Fun Facts about cocoa: it grows on trees" "https://x.ca/a"]) in
  let sources :=
    [mkSourceRef "Cocoa grows on trees...." "https://x.ca/a";
     mkSourceRef "Fun Facts about cocoa section Fun Facts about cocoa: it grows on trees"
       "https://x.ca/a"] in
  ∃ m hits,
    BodyParsed (Some "cocoa") = BodyParsed (Some m) ∧ search sv m = Resolved hits
    ∧ take (length hits) sources
      = (λ h, mkSourceRef (String.substring 0 200 (hit_text h) +:+ "...") (hit_url h))
          <$> hits
    ∧ Forall (λ src, String.length (ref_text src) ≤ 203) (take (length hits) sources)
    ∧ drop (length hits) sources
      = (λ rel, mkSourceRef
                  (Retrieval.source rel +:+ " " +:+ Retrieval.relationship rel
                   +:+ " " +:+ Retrieval.target rel)
                  (if decide (Retrieval.sourceUrl rel = "") then Retrieval.targetUrl rel
                   else Retrieval.sourceUrl rel))
          <$> graphContribution sv apoc g m
    ∧ length hits ≤ length sources ≤ length hits + 10.
Proof.
  intros sv apoc g sources.
  apply (chat_sources_shape sv apoc g (BodyParsed (Some "cocoa")) "It grows on trees.").
  vm_compute. reflexivity.
Defined.

End ChatResponses.

(** ** The index publisher, continued *)

Section Publishing.
Import Publisher.
Implicit Types (now : nat → N) (fails : nat → bool) (content : list RawItem).

(** The batch loop, with the console. *)
Lemma uploadBatch_trace fails (batches : list (list SearchDocument)) (s : Uploader) :
  forEachBatch (uploadBatch fails) batches s
  = Normal (mkUploader (uploads s ++ batches)
              (console s
               ++ imap (λ k batch,
                          if fails (length (uploads s) + k)
                          then LogBatchError (length (uploads s) + k + 1)
                          else LogUploaded (length (uploads s) + k + 1) (length batch))
                    batches)).
Proof.
  revert s. induction batches as [|b batches IH]; intros s.
  - simpl. rewrite !app_nil_r. by destruct s.
  - simpl. rewrite IH. simpl. rewrite Nat.add_0_r, <- !app_assoc. simpl.
    do 4 f_equal. apply imap_ext. intros k batch _. simpl.
    rewrite length_app. simpl.
    replace (length (uploads s) + 1 + k) with (length (uploads s) + S k) by lia. done.
Qed.

Lemma uploadToAzureSearch_trace now fails content :
  uploadToAzureSearch now fails content
  = Normal
      (mkUploader (batchesOf MAX_BATCH_SIZE (validDocuments now content))
         (LogPreparing (length (validDocuments now content))
          :: imap (λ k batch, if fails k then LogBatchError (k + 1)
                              else LogUploaded (k + 1) (length batch))
               (batchesOf MAX_BATCH_SIZE (validDocuments now content))
          ++ [LogFinished (length (validDocuments now content))])).
Proof.
  unfold uploadToAzureSearch. rewrite forBatches_batches, uploadBatch_trace. done.
Qed.

(** X23. A rejected upload is logged with its 1-based batch number and
    changes nothing else: the console is the "preparing" line, one line per
    batch in order (an error line for a rejected upload, else an "uploaded"
    line with the batch size) and the "finished" line, and every batch is
    handed to [uploadDocuments] whichever uploads reject. *)
Theorem upload_console_trace now fails content :
  let r := stateOf (uploadToAzureSearch now fails content) in
  console r
  = LogPreparing (length (validDocuments now content))
    :: imap (λ k batch, if fails k then LogBatchError (k + 1)
                        else LogUploaded (k + 1) (length batch)) (uploads r)
    ++ [LogFinished (length (validDocuments now content))]
  ∧ uploads r = uploads (stateOf (uploadToAzureSearch now (λ _, false) content)).
Proof.
  intros r. subst r. unfold uploadToAzureSearch.
  rewrite !forBatches_batches, !uploadBatch_trace.
  cbn [stateOf uploads console]. split; [|done].
  by rewrite app_comm_cons.
Qed.

(** X24. The number [k] of upload calls is the least with
    [n <= 30000 * k], where [n] is the number of items with a non-empty
    text; no call is made when there is none, and no call uploads an empty
    batch. *)
Theorem upload_call_count now fails content :
  let n := length (filter (λ item, hasText item = true) content) in
  let calls := uploads (stateOf (uploadToAzureSearch now fails content)) in
  (Z.of_nat n ≤ 30000 * Z.of_nat (length calls) < Z.of_nat n + 30000)%Z
  ∧ (calls = [] ↔ n = 0)
  ∧ Forall (λ batch, batch ≠ []) calls.
Proof.
  intros n calls. subst calls. rewrite uploadToAzureSearch_trace.
  cbn [stateOf uploads].
  assert (length (validDocuments now content) = n) as Hn.
  { unfold validDocuments. by rewrite length_imap. }
  pose proof MAX_BATCH_SIZE_pos as Hpos.
  pose proof (batchesFrom_count MAX_BATCH_SIZE (length (validDocuments now content)) 0
                (validDocuments now content) Hpos ltac:(lia)) as Hk.
  cbv zeta in Hk.
  assert (Forall (λ batch, batch ≠ [])
            (batchesOf MAX_BATCH_SIZE (validDocuments now content))) as Hne.
  { apply Forall_forall. intros batch Hin.
    apply batchesFrom_sizes in Hin; [|done]. intros ->. simpl in Hin. lia. }
  unfold batchesOf in *. revert Hk Hne.
  generalize (batchesFrom (length (validDocuments now content)) MAX_BATCH_SIZE 0
                (validDocuments now content)).
  intros calls Hk Hne. rewrite Hn in Hk.
  assert (Z.of_nat n ≤ 30000 * Z.of_nat (length calls) < Z.of_nat n + 30000)%Z as Hbound.
  { revert Hk. generalize (length calls). clear Hne. clearbody n. intros k Hk.
    assert (Z.of_nat (k * MAX_BATCH_SIZE) = 30000 * Z.of_nat k)%Z as Hmul.
    { unfold MAX_BATCH_SIZE. rewrite Nat2Z.inj_mul, Z2Nat.id; lia. }
    assert (Z.of_nat MAX_BATCH_SIZE = 30000%Z) as Hmax by (unfold MAX_BATCH_SIZE; lia).
    lia. }
  split; [done|]. split; [|done]. split.
  - intros ->. simpl in Hbound. lia.
  - intros Hz. destruct calls; [done|]. rewrite Hz in Hbound. simpl length in Hbound. lia.
Qed.

(** *** Documents *)

Lemma digits_dashFree (d : Decimal.uint) : Graph.dashFree (Js.digits d).
Proof. induction d; simpl; try done; split; done. Qed.

Lemma digits_inj (d1 d2 : Decimal.uint) : Js.digits d1 = Js.digits d2 → d1 = d2.
Proof.
  revert d2. induction d1 as [|d1 IH|d1 IH|d1 IH|d1 IH|d1 IH|d1 IH|d1 IH|d1 IH|d1 IH|d1 IH];
    intros [|d2|d2|d2|d2|d2|d2|d2|d2|d2|d2]; simpl; intros Heq;
    try discriminate; try done; f_equal; apply IH; congruence.
Qed.

Lemma numeral_nonneg (z : Z) : (0 ≤ z)%Z → Js.numeral z = Js.digits (N.to_uint (Z.to_N z)).
Proof. intros Hz. unfold Js.numeral. destruct (Z.ltb_spec z 0); [lia|done]. Qed.

Lemma numeral_dashFree (z : Z) : (0 ≤ z)%Z → Graph.dashFree (Js.numeral z).
Proof. intros Hz. rewrite numeral_nonneg by done. apply digits_dashFree. Qed.

Lemma numeral_inj (z1 z2 : Z) :
  (0 ≤ z1)%Z → (0 ≤ z2)%Z → Js.numeral z1 = Js.numeral z2 → z1 = z2.
Proof.
  intros H1 H2. rewrite !numeral_nonneg by done. intros Heq%digits_inj.
  apply (f_equal N.of_uint) in Heq. rewrite !DecimalN.Unsigned.of_to in Heq. lia.
Qed.

(** A string splits at its first dash in one way only. *)
Lemma first_dash_split (a1 a2 r1 r2 : string) :
  Graph.dashFree a1 → Graph.dashFree a2 →
  a1 +:+ String Js.dash r1 = a2 +:+ String Js.dash r2 → a1 = a2.
Proof.
  revert a2. induction a1 as [|c a1 IH]; intros [|c2 a2];
    rewrite ?append_nil, ?append_cons; simpl; intros H1 H2 Heq.
  - done.
  - injection Heq as <- _. by destruct H2.
  - injection Heq as -> _. by destruct H1.
  - injection Heq as -> Heq. f_equal. destruct H1, H2. by eapply IH.
Qed.

Lemma toDocument_id now (i : nat) (item : RawItem) :
  id (toDocument now i item)
  = "doc-" +:+ Js.numeral (Z.of_nat i) +:+ "-" +:+ Js.numeral (Z.of_N (now i)).
Proof. by destruct item. Qed.

(** X25. The ids of the documents of one call are pairwise distinct,
    whatever the clock returns: the position in the array is part of the
    id. *)
Theorem upload_ids_are_distinct now content :
  NoDup (id <$> validDocuments now content).
Proof.
  apply NoDup_alt. intros i j x. unfold validDocuments.
  rewrite !list_lookup_fmap, !list_lookup_imap.
  destruct (filter _ content !! i) as [a|]; [|done].
  destruct (filter _ content !! j) as [b|]; [|done].
  simpl. rewrite !toDocument_id. intros [= <-] [= Heq].
  apply append_inj in Heq.
  apply Nat2Z.inj. apply numeral_inj; [lia..|].
  apply (first_dash_split _ _ (Js.numeral (Z.of_N (now i))) (Js.numeral (Z.of_N (now j))));
    [apply numeral_dashFree; lia..|].
  symmetry. exact Heq.
Qed.

Lemma substring0_empty (n : nat) (s : string) :
  0 < n → s ≠ "" → Js.substring0 n s ≠ "".
Proof. destruct n, s; simpl; [lia|lia|done|done]. Qed.

(** X26. Every document comes from a content item with a non-empty text:
    it carries the item's url, the first 1000 code units of its text (never
    empty), the action "upload", and as category the item's type, or
    "unknown" when the type is empty. *)
Theorem documents_mirror_text_items now content (doc : SearchDocument) :
  doc ∈ validDocuments now content →
  ∃ type text u,
    RawContent type text u ∈ content ∧ text ≠ ""
    ∧ Publisher.text doc = String.substring 0 1000 text
    ∧ Publisher.text doc ≠ ""
    ∧ url doc = u
    ∧ category doc = (if decide (type = "") then "unknown" else type)
    ∧ category doc ≠ ""
    ∧ action doc = "upload".
Proof.
  unfold validDocuments.
  intros (i & item & -> & Hitem)%elem_of_lookup_imap.
  apply list_elem_of_lookup_2, list_elem_of_filter in Hitem as [Htext Hin].
  destruct item as [|type text u]; [done|]. simpl in Htext.
  apply truthy_spec in Htext.
  exists type, text, u. simpl. split_and!; [done..| |done| | |done].
  - apply substring0_empty; [lia|done].
  - unfold Js.or_else. by destruct type.
  - unfold Js.or_else. by destruct type.
Qed.

Lemma documents_mirror_text_items_witness :
  let content := [RawHtml "https://x.ca/a" "<html></html>";
                  RawContent "" "Cocoa grows on trees." "https://x.ca/a"] in
  ∃ type text u,
    RawContent type text u ∈ content ∧ text ≠ ""
    ∧ "Cocoa grows on trees." = String.substring 0 1000 text
    ∧ "Cocoa grows on trees." ≠ ""
    ∧ "https://x.ca/a" = u
    ∧ "unknown" = (if decide (type = "") then "unknown" else type)
    ∧ "unknown" ≠ ""
    ∧ "upload" = "upload".
Proof.
  intros content.
  apply (documents_mirror_text_items (λ _, 7%N) content
           (mkDocument "upload" "doc-0-7" "Cocoa grows on trees." "https://x.ca/a" "unknown")).
  vm_compute. left.
Defined.

End Publishing.

(** ** Start-up *)

Section StartingUp.
Import Startup.
Implicit Types (w : World).

Lemma retry_S w (n k : nat) :
  retry w (S n) k
  = match attempt w k with
    | Chat.Resolved uploaded =>
        mkStarted 1 0 (option_list uploaded) [] (Chat.Resolved tt)
    | Chat.Rejected err =>
        if n =? 0 then mkStarted 1 0 [] [err] (Chat.Rejected err)
        else
          mkStarted (S (attemptsMade (retry w n (S k)))) (S (sleeps (retry w n (S k))))
            (uploadsStarted (retry w n (S k))) (err :: errorsLogged (retry w n (S k)))
            (result (retry w n (S k)))
    end.
Proof. reflexivity. Qed.

Lemma retry_outcome w (n k : nat) :
  let r := retry w (S n) k in
  1 ≤ attemptsMade r ≤ S n
  ∧ sleeps r = attemptsMade r - 1
  ∧ (∀ j, j < attemptsMade r - 1 → ∃ err, attempt w (k + j) = Chat.Rejected err)
  ∧ match result r with
    | Chat.Resolved _ =>
        ∃ uploaded, attempt w (k + (attemptsMade r - 1)) = Chat.Resolved uploaded
                    ∧ uploadsStarted r = option_list uploaded
                    ∧ length (errorsLogged r) = attemptsMade r - 1
    | Chat.Rejected err =>
        attemptsMade r = S n ∧ attempt w (k + n) = Chat.Rejected err
        ∧ uploadsStarted r = [] ∧ length (errorsLogged r) = S n
    end.
Proof.
  revert k. induction n as [|n IH]; intros k; cbv zeta; rewrite retry_S.
  - destruct (attempt w k) as [uploaded|err] eqn:Ha; simpl.
    + split_and!; [lia..| |]; [intros j ?; lia|].
      exists uploaded. by rewrite Nat.add_0_r.
    + split_and!; try done; try lia; try (intros j ?; lia). by rewrite Nat.add_0_r.
  - destruct (attempt w k) as [uploaded|err] eqn:Ha.
    + simpl. split_and!; [lia..| |]; [intros j ?; lia|].
      exists uploaded. by rewrite Nat.add_0_r.
    + change (S n =? 0) with false. cbv iota.
      destruct (IH (S k)) as (Hb & Hs & Hfail & Hres).
      set (later := retry w (S n) (S k)) in *. cbn [attemptsMade sleeps result
        uploadsStarted errorsLogged].
      split_and!; [lia..| |].
      * intros [|j] Hj; [rewrite Nat.add_0_r; eauto|].
        replace (k + S j) with (S k + j) by lia. apply Hfail. lia.
      * destruct (result later) as [[]|err'].
        -- destruct Hres as (uploaded & Hu & Hup & Hlen). exists uploaded.
           replace (k + (S (attemptsMade later) - 1))
             with (S k + (attemptsMade later - 1)) by lia.
           split_and!; [done..|]. simpl. lia.
        -- destruct Hres as (Hn & Hlast & Hup & Hlen).
           replace (k + S n) with (S k + n) by lia.
           split_and!; [lia|done|done|]. simpl. lia.
Qed.

(** X27. [initializeServices] makes between one and three attempts and
    sleeps once between two consecutive attempts; every attempt before the
    last one failed; when it returns, its last attempt succeeded; it throws
    only after three failed attempts, and then the error of the third. *)
Theorem startup_retries_three_times w :
  let r := initializeServices w in
  1 ≤ attemptsMade r ≤ 3
  ∧ sleeps r = attemptsMade r - 1
  ∧ (∀ j, j < attemptsMade r - 1 → ∃ err, attempt w j = Chat.Rejected err)
  ∧ match result r with
    | Chat.Resolved _ =>
        ∃ uploaded, attempt w (attemptsMade r - 1) = Chat.Resolved uploaded
    | Chat.Rejected err => attemptsMade r = 3 ∧ attempt w 2 = Chat.Rejected err
    end.
Proof.
  intros r. subst r. unfold initializeServices.
  destruct (retry_outcome w 2 0) as (Hb & Hs & Hfail & Hres).
  split_and!; [lia..|exact Hfail|].
  destruct (result (retry w 3 0)) as [[]|err].
  - destruct Hres as (uploaded & Hu & _). eauto.
  - destruct Hres as (? & ? & _). done.
Qed.

Lemma startup_retries_three_times_witness :
  let w := mkWorld
             (λ k, mkIndexService (if k =? 0 then GetIndexFails None "ENOTFOUND"
                                   else GetIndexFails (Some 404) "not found")
                     (Chat.Resolved tt))
             (λ _, Chat.Resolved [RawContent "p" "Cocoa grows on trees." "https://x.ca/a"]) in
  ∃ err, attempt w 0 = Chat.Rejected err.
Proof.
  intros w.
  apply (proj1 (proj2 (proj2 (startup_retries_three_times w))) 0).
  vm_compute. lia.
Defined.

Lemma attempt_resolved w (k : nat) (uploaded : option (list RawItem)) :
  attempt w k = Chat.Resolved uploaded ↔
  (getIndex (indexService w k) = IndexFound
   ∨ ∃ message, getIndex (indexService w k) = GetIndexFails (Some 404) message
                ∧ createIndex (indexService w k) = Chat.Resolved tt)
  ∧ ∃ content, scrape w k = Chat.Resolved content
               ∧ uploaded = (if 0 <? length content then Some content else None).
Proof.
  unfold attempt, ensureSearchIndex.
  destruct (getIndex (indexService w k)) as [|code message] eqn:Hg; simpl.
  - destruct (scrape w k) as [content|err]; split.
    + intros [= <-]. split; [by left|by exists content].
    + by intros (_ & content' & [= <-] & ->).
    + done.
    + by intros (_ & ? & ? & _).
  - case_bool_decide as Hcode; simpl.
    + destruct (createIndex (indexService w k)) as [[]|err] eqn:Hc.
      * destruct (scrape w k) as [content|err]; split.
        -- intros [= <-]. split; [right; subst; by exists message|by exists content].
        -- by intros (_ & content' & [= <-] & ->).
        -- done.
        -- by intros (_ & ? & ? & _).
      * split; [done|]. by intros ([?|(? & _ & ?)] & _).
    + split; [done|]. intros ([?|(? & [= ? _] & _)] & _); done.
Qed.

(** X28. When [initializeServices] returns, then in its last attempt the
    index was found, or was missing with status 404 and got created, and
    the crawl returned; [uploadToAzureSearch] was called in that attempt
    only, and only if the crawl's content was not empty. When it throws,
    nothing was uploaded. *)
Theorem startup_uploads_once w :
  let r := initializeServices w in
  let k := attemptsMade r - 1 in
  match result r with
  | Chat.Resolved _ =>
      (getIndex (indexService w k) = IndexFound
       ∨ ∃ message, getIndex (indexService w k) = GetIndexFails (Some 404) message
                    ∧ createIndex (indexService w k) = Chat.Resolved tt)
      ∧ ∃ content, scrape w k = Chat.Resolved content
                   ∧ uploadsStarted r = (if 0 <? length content then [content] else [])
  | Chat.Rejected _ => uploadsStarted r = []
  end.
Proof.
  intros r k. subst r k. unfold initializeServices.
  destruct (retry_outcome w 2 0) as (_ & _ & _ & Hres).
  destruct (result (retry w 3 0)) as [[]|err].
  - destruct Hres as (uploaded & Hu & -> & _). simpl in Hu.
    apply attempt_resolved in Hu as (Hidx & content & Hs & ->).
    split; [done|]. exists content. split; [done|]. by destruct (0 <? length content).
  - by destruct Hres as (_ & _ & ? & _).
Qed.

End StartingUp.

(** ** The chat widget *)

Section Widgets.
Import Frontend.
Implicit Types (w : Widget) (sv : Chat.Services) (apoc : Retrieval.Apoc) (g : Graph.Store).



End Widgets.
